(** * Email-Template-Provider: a shallow embedding of [script.js]

    The browser script keeps three pieces of module state ([templates],
    [displayed], the modal index), renders a filtered list of cards, shows a
    modal over the filtered list and copies a formatted e-mail to the
    clipboard.  The translation helper talks to a remote endpoint.

    Strings are JavaScript strings: finite sequences of UTF-16 code units.
    Arrays are objects with identity, kept in a store and named by references.
    Asynchronous functions are trees of suspension points, one per [await]. *)

From Stdlib Require Import ZArith NArith List Lia Bool String Ascii.
From Stdlib Require Import Numbers.DecimalString.
From stdpp Require Import base list.
Import ListNotations.

(** ** JavaScript strings *)

Module JsString.

Local Open Scope N_scope.

(** A code unit is a number below 65536; a string is a list of them. *)
Definition unit16 := N.
Definition jsstring := list unit16.

(** An ASCII literal of the source, as code units. *)
Definition lit (s : string) : jsstring :=
  List.map N_of_ascii (list_ascii_of_string s).

Fixpoint str_eqb (a b : jsstring) : bool :=
  match a, b with
  | [], [] => true
  | x :: a', y :: b' => (x =? y) && str_eqb a' b'
  | _, _ => false
  end.

(** [x || d] for a value that is a string or absent: the empty string and
    [undefined] are both falsy. *)
Definition orElse (v : option jsstring) (d : jsstring) : jsstring :=
  match v with
  | Some (c :: s) => c :: s
  | _ => d
  end.

(** [!s] on a string. *)
Definition falsy (s : jsstring) : bool :=
  match s with [] => true | _ => false end.

(** [s.replace(/c/g, r)] for a one-character pattern [c] and a replacement
    [r] without dollar patterns. *)
Definition replaceAll (c : unit16) (r : jsstring) (s : jsstring) : jsstring :=
  flat_map (fun x => if x =? c then r else [x]) s.

(** [h.startsWith(n)] and [h.includes(n)]. *)
Fixpoint startsWith (h n : jsstring) {struct n} : bool :=
  match n, h with
  | [], _ => true
  | y :: n', x :: h' => (x =? y) && startsWith h' n'
  | _ :: _, [] => false
  end.

Fixpoint includes (h n : jsstring) : bool :=
  startsWith h n ||
  match h with
  | [] => false
  | _ :: h' => includes h' n
  end.

(** [s.slice(0, k)] for [0 <= k]. *)
Definition slice0 (k : nat) (s : jsstring) : jsstring := firstn k s.

(** [String(n)] for a non-negative integer. *)
Definition ofNat (n : nat) : jsstring :=
  lit (NilZero.string_of_uint (Nat.to_uint n)).

(** [n] occurs in [h] as a contiguous substring. *)
Definition substring (n h : jsstring) : Prop :=
  exists pre post, h = pre ++ n ++ post.

End JsString.
Import JsString.

(** ** The text sanitizer (lines 84-91) *)

Local Open Scope N_scope.

Definition AMP : unit16 := 38.
Definition LT : unit16 := 60.
Definition GT : unit16 := 62.
Definition QUOT : unit16 := 34.
Definition APOS : unit16 := 39.

Definition escapeHtml (str : option jsstring) : jsstring :=
  let s0 := orElse str [] in
  let s1 := replaceAll AMP (lit "&amp;") s0 in
  let s2 := replaceAll LT (lit "&lt;") s1 in
  let s3 := replaceAll GT (lit "&gt;") s2 in
  let s4 := replaceAll QUOT (lit "&quot;") s3 in
  replaceAll APOS (lit "&#039;") s4.

(** What one code unit becomes in the output of [escapeHtml]. *)
Definition escapeUnit (x : unit16) : jsstring :=
  if x =? AMP then lit "&amp;"
  else if x =? LT then lit "&lt;"
  else if x =? GT then lit "&gt;"
  else if x =? QUOT then lit "&quot;"
  else if x =? APOS then lit "&#039;"
  else [x].

(** The sanitizer as the specification words it: every one of the five
    characters goes to its named character reference, the ampersand first.
    The named reference of the apostrophe is [&apos;]. *)
Definition escapeHtml_named (str : option jsstring) : jsstring :=
  let s0 := orElse str [] in
  let s1 := replaceAll AMP (lit "&amp;") s0 in
  let s2 := replaceAll LT (lit "&lt;") s1 in
  let s3 := replaceAll GT (lit "&gt;") s2 in
  let s4 := replaceAll QUOT (lit "&quot;") s3 in
  replaceAll APOS (lit "&apos;") s4.

(** The same five replacements with the ampersand last, to see what the
    order of the source avoids. *)
Definition escapeHtml_amp_last (str : option jsstring) : jsstring :=
  let s0 := orElse str [] in
  let s1 := replaceAll LT (lit "&lt;") s0 in
  let s2 := replaceAll GT (lit "&gt;") s1 in
  let s3 := replaceAll QUOT (lit "&quot;") s2 in
  let s4 := replaceAll APOS (lit "&#039;") s3 in
  replaceAll AMP (lit "&amp;") s4.

(** ** Data model *)

Local Open Scope Z_scope.

(** A template record.  [category] may be absent. *)
Record Template := mkTemplate {
  subject : jsstring;
  body : jsstring;
  category : option jsstring
}.

(** Arrays live in a store; a variable holds a reference into it.  Nothing in
    the script writes into an array after it is built, so the store only
    grows. *)
Abbreviation Ref := nat (only parsing).
Abbreviation Heap := (list (list Template)) (only parsing).

Definition deref (h : Heap) (r : Ref) : list Template :=
  default [] (h !! r).

Definition alloc (a : list Template) (h : Heap) : Heap * Ref :=
  (h ++ [a], length h).

(** [a[i]] for an integer [i]: [undefined] outside the array. *)
Definition arrayGet {A} (a : list A) (i : Z) : option A :=
  if i <? 0 then None else a !! Z.to_nat i.

(** The CSS [display] values the script assigns; [DisplayUnset] is the value
    of a fresh element. *)
Inductive Display := DisplayUnset | DisplayNone | DisplayFlex | DisplayBlock.

(** The interpolated parts of a card's markup (lines 100-109), with the
    template and index its listeners close over. *)
Record Card := mkCard {
  cardSubject : jsstring;
  cardBadge : jsstring;
  cardGreeting : jsstring;
  cardPreviewBody : jsstring;
  cardClosing : jsstring;
  cardTemplate : Template;
  cardIndex : Z
}.

(** A child of the list element: the no-results paragraph or a card. *)
Inductive ListChild :=
| Paragraph (text : jsstring)
| CardArticle (c : Card).

(** The interpolated parts of the modal's content (lines 245-253). *)
Record ModalContent := mkModalContent {
  modalTitle : jsstring;
  modalBadge : jsstring;
  modalGreeting : jsstring;
  modalFullBody : jsstring;
  modalClosing : jsstring
}.

(** The modal element with its buttons, once [ensureModal] has built it. *)
Record Modal := mkModal {
  modalDisplay : Display;
  modalContent : option ModalContent;
  prevDisabled : bool;
  nextDisabled : bool;
  modalCopyText : jsstring
}.

(** The page elements the script writes to. *)
Record Page := mkPage {
  listEl : list ListChild;
  categorySel : list jsstring;
  countEl : jsstring;
  loadingSection : Display;
  progressBar : option jsstring;
  progressText : option jsstring
}.

(** The module state of the script, with the clipboard and the alerts shown. *)
Record State := mkState {
  heap : Heap;
  templates : Ref;
  displayed : Ref;
  targetLang : jsstring;
  modalIndex : Z;
  modalEl : option Modal;
  page : Page;
  clipboard : option jsstring;
  alerts : list jsstring
}.

Definition templatesList (s : State) : list Template := deref (heap s) (templates s).
Definition displayedList (s : State) : list Template := deref (heap s) (displayed s).

(** Both array variables point into the store. *)
Definition wellFormed (s : State) : Prop :=
  (templates s < length (heap s))%nat /\ (displayed s < length (heap s))%nat.

Definition set_listEl (v : list ListChild) (p : Page) : Page :=
  mkPage v (categorySel p) (countEl p) (loadingSection p) (progressBar p) (progressText p).
Definition set_categorySel (v : list jsstring) (p : Page) : Page :=
  mkPage (listEl p) v (countEl p) (loadingSection p) (progressBar p) (progressText p).
Definition set_countEl (v : jsstring) (p : Page) : Page :=
  mkPage (listEl p) (categorySel p) v (loadingSection p) (progressBar p) (progressText p).
Definition set_loadingSection (v : Display) (p : Page) : Page :=
  mkPage (listEl p) (categorySel p) (countEl p) v (progressBar p) (progressText p).
(** [if (progressBar()) progressBar().style.width = v]: only when the element
    is there. *)
Definition set_progressBar (v : jsstring) (p : Page) : Page :=
  mkPage (listEl p) (categorySel p) (countEl p) (loadingSection p)
    (match progressBar p with Some _ => Some v | None => None end) (progressText p).
Definition set_progressText (v : jsstring) (p : Page) : Page :=
  mkPage (listEl p) (categorySel p) (countEl p) (loadingSection p) (progressBar p)
    (match progressText p with Some _ => Some v | None => None end).

Definition set_page (f : Page -> Page) (s : State) : State :=
  mkState (heap s) (templates s) (displayed s) (targetLang s) (modalIndex s)
    (modalEl s) (f (page s)) (clipboard s) (alerts s).
Definition set_modalIndex (v : Z) (s : State) : State :=
  mkState (heap s) (templates s) (displayed s) (targetLang s) v
    (modalEl s) (page s) (clipboard s) (alerts s).
Definition set_modalEl (v : option Modal) (s : State) : State :=
  mkState (heap s) (templates s) (displayed s) (targetLang s) (modalIndex s)
    v (page s) (clipboard s) (alerts s).
Definition set_targetLang (v : jsstring) (s : State) : State :=
  mkState (heap s) (templates s) (displayed s) v (modalIndex s)
    (modalEl s) (page s) (clipboard s) (alerts s).
Definition set_clipboard (v : jsstring) (s : State) : State :=
  mkState (heap s) (templates s) (displayed s) (targetLang s) (modalIndex s)
    (modalEl s) (page s) (Some v) (alerts s).
Definition add_alert (v : jsstring) (s : State) : State :=
  mkState (heap s) (templates s) (displayed s) (targetLang s) (modalIndex s)
    (modalEl s) (page s) (clipboard s) (alerts s ++ [v]).
(** [templates = <a new array a>]. *)
Definition assign_templates (a : list Template) (s : State) : State :=
  let '(h, r) := alloc a (heap s) in
  mkState h r (displayed s) (targetLang s) (modalIndex s)
    (modalEl s) (page s) (clipboard s) (alerts s).
(** [displayed = <a new array a>]. *)
Definition assign_displayed (a : list Template) (s : State) : State :=
  let '(h, r) := alloc a (heap s) in
  mkState h (templates s) r (targetLang s) (modalIndex s)
    (modalEl s) (page s) (clipboard s) (alerts s).

(** Lines 8-10 and 22-23: two distinct empty arrays, English, no modal. *)
Definition initialState (p : Page) : State :=
  mkState [[]; []] 0%nat 1%nat (lit "en") (-1) None p None [].

(** ** Localised fixed texts *)

Definition NEWLINE : unit16 := 10%N.
Definition SPACE : unit16 := 32%N.
Definition ELLIPSIS : unit16 := 8230%N.

Definition isEn (lang : jsstring) : bool := str_eqb lang (lit "en").

Definition greetingJa : jsstring := [12372; 25285; 24403; 32773; 27096]%N.
Definition closingJa : jsstring :=
  [12424; 12429; 12375; 12367; 12362; 39000; 12356; 12356; 12383; 12375; 12414; 12377]%N.
Definition noResultsJa : jsstring :=
  [12486; 12531; 12503; 12524; 12540; 12488; 12364; 35211; 12388; 12363; 12426;
   12414; 12379; 12435; 12290]%N.
Definition loadingJa : jsstring :=
  [12486; 12531; 12503; 12524; 12540; 12488; 12434; 35501; 12415; 36796; 12415;
   20013; 8230]%N.
Definition doneJa : jsstring := [23436; 20102]%N.
Definition copiedText : jsstring := [10003%N] ++ lit " Copied".
Definition copyIconText : jsstring := [55357; 56784]%N.

(** The language-selected pair, as the specification names it. *)
Definition greeting (lang : jsstring) : jsstring :=
  if isEn lang then lit "Good day Sir/Ma'am," else greetingJa.
Definition closing (lang : jsstring) : jsstring :=
  if isEn lang then lit "Best regards," else closingJa.

(** ** Categories (lines 71-81) *)

(** [set.add(x)] on a JavaScript [Set], which iterates in insertion order. *)
Definition setAdd (x : jsstring) (set : list jsstring) : list jsstring :=
  if existsb (str_eqb x) set then set else set ++ [x].

Definition categoriesOf (ts : list Template) : list jsstring :=
  fold_left (fun set t => setAdd (orElse (category t) (lit "General")) set)
    ts [lit "All"].

Definition populateCategories (s : State) : State :=
  set_page (set_categorySel (categoriesOf (templatesList s))) s.

(** ** Cards (lines 94-139) *)

Definition previewText (t : Template) : jsstring :=
  if (140 <? length (orElse (Some (body t)) []))%nat
  then slice0 140 (body t) ++ [ELLIPSIS]
  else body t.

Definition createCard (lang : jsstring) (t : Template) (idx : Z) : Card :=
  {| cardSubject := escapeHtml (Some (subject t));
     cardBadge := escapeHtml (Some (orElse (category t) (lit "General")));
     cardGreeting := if isEn lang then lit "Good day Sir/Ma'am," else greetingJa;
     cardPreviewBody := escapeHtml (Some (previewText t));
     cardClosing := if isEn lang then lit "Best regards," else closingJa;
     cardTemplate := t;
     cardIndex := idx |}.

(** The copy control of a card: its text and whether it carries the class
    [copied]. *)
Record CopyIcon := mkCopyIcon {
  iconText : jsstring;
  iconCopied : bool
}.

(** The click listener of a card's copy control (lines 119-136).  [writeOk]
    says whether [navigator.clipboard.writeText] fulfils. *)
Definition cardCopyClick (t : Template) (icon : CopyIcon) (writeOk : bool)
    (s : State) : State * CopyIcon :=
  let full :=
    lit "Subject: " ++ subject t ++ [NEWLINE; NEWLINE]
    ++ (if isEn (targetLang s) then lit "Good day Sir/Ma'am," else greetingJa)
    ++ [NEWLINE; NEWLINE] ++ body t ++ [NEWLINE; NEWLINE]
    ++ (if isEn (targetLang s) then lit "Best regards," else closingJa)
    ++ [NEWLINE] ++ lit "[Your Name]" in
  if writeOk
  then (set_clipboard full s, mkCopyIcon copiedText true)
  else (add_alert (lit "Copy failed. Please copy manually.") s, icon).

(** The timer the listener starts on success, two seconds later. *)
Definition cardCopyTimeout (icon : CopyIcon) : CopyIcon :=
  mkCopyIcon copyIconText false.

(** ** The count readout (lines 142-149) *)

(** The count element is there: [ensureCountDisplay] (line 46) has inserted
    it if the page lacked it. *)
Definition updateCount (s : State) : State :=
  let total := length (templatesList s) in
  let shown := length (displayedList s) in
  set_page (set_countEl (ofNat shown ++ lit " / " ++ ofNat total)) s.

(** ** The modal (lines 175-278) *)

Definition newModal : Modal :=
  {| modalDisplay := DisplayUnset;
     modalContent := None;
     prevDisabled := false;
     nextDisabled := false;
     modalCopyText := lit "Copy Email" |}.

Definition ensureModal (s : State) : State :=
  match modalEl s with
  | Some _ => s
  | None => set_modalEl (Some newModal) s
  end.

Definition set_modalDisplay (d : Display) (m : Modal) : Modal :=
  mkModal d (modalContent m) (prevDisabled m) (nextDisabled m) (modalCopyText m).
Definition set_modalCopyText (v : jsstring) (m : Modal) : Modal :=
  mkModal (modalDisplay m) (modalContent m) (prevDisabled m) (nextDisabled m) v.

(** Lines 242-259.  The modal elements are there whenever this runs: every
    caller runs after [ensureModal]. *)
Definition showModal (s : State) : State :=
  let d := displayedList s in
  if (modalIndex s <? 0) || (modalIndex s >=? Z.of_nat (length d)) then s
  else
    match arrayGet d (modalIndex s), modalEl s with
    | Some t, Some m =>
        set_modalEl (Some
          {| modalDisplay := modalDisplay m;
             modalContent := Some
               {| modalTitle := escapeHtml (Some (subject t));
                  modalBadge := escapeHtml (Some (orElse (category t) (lit "General")));
                  modalGreeting :=
                    if isEn (targetLang s) then lit "Good day Sir/Ma'am," else greetingJa;
                  modalFullBody := escapeHtml (Some (body t));
                  modalClosing :=
                    (if isEn (targetLang s) then lit "Best regards," else closingJa)
                    ++ lit "<br>[Your Name]" |};
             prevDisabled := modalIndex s <=? 0;
             nextDisabled := modalIndex s >=? Z.of_nat (length d) - 1;
             modalCopyText := lit "Copy Email" |}) s
    | _, _ => s
    end.

(** Lines 233-239. *)
Definition openModalByIndex (index : Z) (s : State) : State :=
  if (index <? 0) || (index >=? Z.of_nat (length (displayedList s))) then s
  else
    let s1 := ensureModal s in
    let s2 := set_modalIndex index s1 in
    let s3 := showModal s2 in
    set_modalEl (option_map (set_modalDisplay DisplayFlex) (modalEl s3)) s3.

(** Lines 262-273. *)
Definition showPrevModal (s : State) : State :=
  if modalIndex s >? 0
  then showModal (set_modalIndex (modalIndex s - 1) s)
  else s.

Definition showNextModal (s : State) : State :=
  if modalIndex s <? Z.of_nat (length (displayedList s)) - 1
  then showModal (set_modalIndex (modalIndex s + 1) s)
  else s.

(** Lines 274-278. *)
Definition closeModal (s : State) : State :=
  match modalEl s with
  | None => s
  | Some m => set_modalIndex (-1) (set_modalEl (Some (set_modalDisplay DisplayNone m)) s)
  end.

(** The click listener of the modal's copy button (lines 204-216). *)
Definition modalCopyClick (writeOk : bool) (s : State) : State :=
  if modalIndex s <? 0 then s
  else
    match arrayGet (displayedList s) (modalIndex s) with
    | None => s
    | Some t =>
        let full :=
          lit "Subject: " ++ subject t ++ [NEWLINE; NEWLINE]
          ++ (if isEn (targetLang s) then lit "Good day Sir/Ma'am," else greetingJa)
          ++ [NEWLINE; NEWLINE] ++ body t ++ [NEWLINE; NEWLINE]
          ++ (if isEn (targetLang s) then lit "Best regards," else closingJa)
          ++ [NEWLINE] ++ lit "[Your Name]" in
        if writeOk
        then
          let s1 := set_clipboard full s in
          set_modalEl (option_map (set_modalCopyText copiedText) (modalEl s1)) s1
        else add_alert (lit "Copy failed. Please copy manually.") s
    end.

Definition modalCopyTimeout (s : State) : State :=
  set_modalEl (option_map (set_modalCopyText (lit "Copy Email")) (modalEl s)) s.

(** The keys the [keydown] listener tells apart. *)
Inductive Key := Escape | ArrowRight | ArrowLeft | OtherKey.

(** Lines 224-229. *)
Definition onKeyDown (k : Key) (s : State) : State :=
  match modalEl s with
  | None => s
  | Some m =>
      match modalDisplay m with
      | DisplayFlex =>
          match k with
          | Escape => closeModal s
          | ArrowRight => showNextModal s
          | ArrowLeft => showPrevModal s
          | OtherKey => s
          end
      | _ => s
      end
  end.

(** What the user can do to the modal controller.  [CardClick idx] is a click
    on the card built with index [idx], outside its copy control (lines
    112-115).  The listeners of the modal's own controls and of the keyboard
    are installed by [ensureModal], so they fire only once the modal exists. *)
Inductive ModalEvent :=
| CardClick (idx : Z)
| PrevClick
| NextClick
| CloseClick
| OverlayClick
| KeyDown (k : Key).

Definition modalStep (ev : ModalEvent) (s : State) : State :=
  match ev with
  | CardClick idx => openModalByIndex idx s
  | PrevClick => match modalEl s with Some _ => showPrevModal s | None => s end
  | NextClick => match modalEl s with Some _ => showNextModal s | None => s end
  | CloseClick => match modalEl s with Some _ => closeModal s | None => s end
  | OverlayClick => match modalEl s with Some _ => closeModal s | None => s end
  | KeyDown k => onKeyDown k s
  end.

Definition runModal (evs : list ModalEvent) (s : State) : State :=
  fold_left (fun st ev => modalStep ev st) evs s.

(** The modal is open when it is displayed, as the [keydown] listener tests
    it. *)
Definition isOpen (s : State) : Prop :=
  exists m, modalEl s = Some m /\ modalDisplay m = DisplayFlex.

Definition indexInRange (s : State) : Prop :=
  0 <= modalIndex s <= Z.of_nat (length (displayedList s)) - 1.

(** The [display] of the modal element, if the element exists. *)
Definition modalDisplayOf (s : State) : option Display :=
  option_map modalDisplay (modalEl s).

(** What every run of the controller keeps: the index is [-1] or a position
    of the displayed list, and it is a position while the modal is open. *)
Definition navigable (s : State) : Prop :=
  -1 <= modalIndex s <= Z.of_nat (length (displayedList s)) - 1
  /\ (isOpen s -> 0 <= modalIndex s).

(** The state the script starts the modal in (lines 22-23). *)
Definition modalInitial (s : State) : Prop :=
  modalIndex s = -1 /\ modalEl s = None.

(** ** The list (lines 152-172) *)

(** [v !== s] negated, for [v] a string or absent and [s] a string. *)
Definition strictEq (v : option jsstring) (s : jsstring) : bool :=
  match v with
  | Some c => str_eqb c s
  | None => false
  end.

(** [l'] is the ordered subsequence of [l] made of exactly the entries that
    satisfy [P]. *)
Inductive selects {A : Type} (P : A -> Prop) : list A -> list A -> Prop :=
| selects_nil : selects P [] []
| selects_keep x l l' : P x -> selects P l l' -> selects P (x :: l) (x :: l')
| selects_drop x l l' : ~ P x -> selects P l l' -> selects P (x :: l) l'.

Section Rendering.

(** [String.prototype.toLowerCase], the Unicode lower-casing of the engine. *)
Variable toLowerCase : jsstring -> jsstring.

(** The callback of [templates.filter] (lines 155-159), [q] already
    lower-cased. *)
Definition keepTemplate (filterCategory q : jsstring) (t : Template) : bool :=
  if negb (str_eqb filterCategory (lit "All"))
     && negb (strictEq (category t) filterCategory)
  then false
  else if falsy q then true
  else includes
         (toLowerCase (subject t ++ lit " " ++ body t ++ lit " "
                       ++ orElse (category t) []))
         q.

Definition renderList (filterCategory search : jsstring) (s : State) : State :=
  let s1 := set_page (set_listEl []) s in
  let q := toLowerCase (orElse (Some search) []) in
  let s2 :=
    assign_displayed
      (List.filter (keepTemplate filterCategory q) (templatesList s1)) s1 in
  let s3 := updateCount s2 in
  if (length (displayedList s3) =? 0)%nat
  then
    set_page (set_listEl
      [Paragraph (if isEn (targetLang s3) then lit "No templates found."
                  else noResultsJa)]) s3
  else
    set_page (set_listEl
      (imap (fun i t => CardArticle (createCard (targetLang s3) t (Z.of_nat i)))
            (displayedList s3))) s3.

(** The predicate of the specification, part by part. *)
Definition categoryMatches (selected : jsstring) (t : Template) : Prop :=
  category t = Some selected \/ selected = lit "All".

(** As the specification words the search text: subject, body and category
    concatenated. *)
Definition concatenatedText (t : Template) : jsstring :=
  subject t ++ body t ++ orElse (category t) [].

Definition matchesStated (selected search : jsstring) (t : Template) : Prop :=
  categoryMatches selected t
  /\ (search = []
      \/ substring (toLowerCase search) (toLowerCase (concatenatedText t))).

(** The search text with one space between the fields. *)
Definition joinedText (t : Template) : jsstring :=
  subject t ++ [SPACE] ++ body t ++ [SPACE] ++ orElse (category t) [].

Definition matchesJoined (selected search : jsstring) (t : Template) : Prop :=
  categoryMatches selected t
  /\ (search = []
      \/ substring (toLowerCase search) (toLowerCase (joinedText t))).

End Rendering.

(** Lower-casing on the ASCII letters, where the engine's lower-casing and
    this one agree; used to run the model on ASCII inputs. *)
Definition asciiLower (s : jsstring) : jsstring :=
  List.map (fun c => if (65 <=? c)%N && (c <=? 90)%N then (c + 32)%N else c) s.

(** ** Asynchronous code *)

Inductive Error := NetworkError | SyntaxError | TypeError.

(** How a promise settles. *)
Inductive Settled (A : Type) : Type :=
| Fulfilled (v : A)
| Rejected (e : Error).
Arguments Fulfilled {A} v.
Arguments Rejected {A} e.

(** The request of line 52: the URL, the method, the object that is
    serialised as the body, and the content type. *)
Record Request := mkRequest {
  reqUrl : jsstring;
  reqMethod : jsstring;
  reqQ : jsstring;
  reqSource : jsstring;
  reqTarget : jsstring;
  reqFormat : jsstring;
  reqContentType : jsstring
}.

(** A response, opaque to the script but for [res.json()]. *)
Record Response := mkResponse {
  responseStatus : N;
  responseBody : jsstring
}.

(** What the script can observe of the parsed body: [null], on which reading
    a property throws, or a value with or without a [translatedText], which
    is text when it is there. *)
Inductive Data :=
| DataNull
| DataValue (translatedText : option jsstring).

(** An asynchronous computation, up to its next suspension point: it has
    returned, it has thrown, it awaits [fetch] or [res.json()], or it is about
    to read the module variable [targetLang]. *)
Inductive Async (A : Type) : Type :=
| Return (a : A)
| Throw (e : Error)
| AwaitFetch (req : Request) (k : Settled Response -> Async A)
| AwaitJson (res : Response) (k : Settled Data -> Async A)
| ReadTargetLang (k : jsstring -> Async A).
Arguments Return {A} a.
Arguments Throw {A} e.
Arguments AwaitFetch {A} req k.
Arguments AwaitJson {A} res k.
Arguments ReadTargetLang {A} k.

Fixpoint bind {A B : Type} (p : Async A) (f : A -> Async B) : Async B :=
  match p with
  | Return a => f a
  | Throw e => Throw e
  | AwaitFetch req k => AwaitFetch req (fun r => bind (k r) f)
  | AwaitJson res k => AwaitJson res (fun r => bind (k r) f)
  | ReadTargetLang k => ReadTargetLang (fun l => bind (k l) f)
  end.

(** [try { p } catch (err) { h err }]. *)
Fixpoint tryCatch {A : Type} (p : Async A) (h : Error -> Async A) : Async A :=
  match p with
  | Return a => Return a
  | Throw e => h e
  | AwaitFetch req k => AwaitFetch req (fun r => tryCatch (k r) h)
  | AwaitJson res k => AwaitJson res (fun r => tryCatch (k r) h)
  | ReadTargetLang k => ReadTargetLang (fun l => tryCatch (k l) h)
  end.

(** [await p] for a promise [p]: the value, or the rejection thrown. *)
Definition awaited {A : Type} (r : Settled A) : Async A :=
  match r with
  | Fulfilled v => Return v
  | Rejected e => Throw e
  end.

Definition fetch (req : Request) : Async Response := AwaitFetch req awaited.
Definition json (res : Response) : Async Data := AwaitJson res awaited.

(** [data.translatedText]. *)
Definition getTranslatedText (data : Data) : Async (option jsstring) :=
  match data with
  | DataNull => Throw TypeError
  | DataValue f => Return f
  end.

Definition TRANSLATE_URL : jsstring :=
  lit "https://translate.argosopentech.com/translate".

Definition translateRequest (text lang : jsstring) : Request :=
  {| reqUrl := TRANSLATE_URL;
     reqMethod := lit "POST";
     reqQ := text;
     reqSource := lit "auto";
     reqTarget := lang;
     reqFormat := lit "text";
     reqContentType := lit "application/json" |}.

(** Lines 49-68.  The [console.error] of the handler changes no state and is
    left out. *)
Definition translateTextForce (text lang : jsstring) : Async jsstring :=
  if falsy text then Return []
  else
    tryCatch
      (bind (fetch (translateRequest text lang)) (fun res =>
       bind (json res) (fun data =>
       bind (getTranslatedText data) (fun translated =>
       Return (orElse translated text)))))
      (fun err => Return text).

(** The callback of [customTemplates.map] (lines 288-292). *)
Definition translateTemplate (t : Template) : Async Template :=
  ReadTargetLang (fun lang1 =>
  bind (translateTextForce (subject t) lang1) (fun subject' =>
  ReadTargetLang (fun lang2 =>
  bind (translateTextForce (body t) lang2) (fun body' =>
  Return {| subject := subject'; body := body'; category := category t |})))).

(** ** Running asynchronous code *)

(** What the network does: how each [fetch] settles and how each
    [res.json()] settles. *)
Record Network := mkNetwork {
  onFetch : Request -> Settled Response;
  onJson : Response -> Settled Data
}.

(** One computation run to its end against a network, [targetLang] being
    [lang] throughout: how its promise settles and the requests it sent. *)
Fixpoint run {A : Type} (net : Network) (lang : jsstring) (p : Async A)
    : Settled A * list Request :=
  match p with
  | Return a => (Fulfilled a, [])
  | Throw e => (Rejected e, [])
  | AwaitFetch req k =>
      let '(r, sent) := run net lang (k (onFetch net req)) in (r, req :: sent)
  | AwaitJson res k => run net lang (k (onJson net res))
  | ReadTargetLang k => run net lang (k lang)
  end.

(** A translation call fails: the transport fails, parsing the body fails, or
    the parsed body has no [translatedText] to read. *)
Definition callFails (net : Network) (req : Request) : Prop :=
  (exists e, onFetch net req = Rejected e)
  \/ (exists res e, onFetch net req = Fulfilled res /\ onJson net res = Rejected e)
  \/ (exists res, onFetch net req = Fulfilled res /\ onJson net res = Fulfilled DataNull)
  \/ (exists res, onFetch net req = Fulfilled res
                  /\ onJson net res = Fulfilled (DataValue None)).

(** A computation runs on until it waits for the network: reads of
    [targetLang] see its current value [lang].  Every [await] yields, but an
    [await] on a promise that is already settled resumes in a microtask,
    before the event loop handles any answer of the network; so between two
    answers a computation is at a [fetch], at a [res.json()], or at its end. *)
Fixpoint advance {A : Type} (lang : jsstring) (p : Async A) : Async A :=
  match p with
  | ReadTargetLang k => advance lang (k lang)
  | _ => p
  end.

(** What the event loop hands to a suspended computation. *)
Inductive Answer :=
| FetchSettled (r : Settled Response)
| JsonSettled (d : Settled Data).

(** A suspended computation resumes with the answer to what it awaits, and
    runs to its next suspension point. *)
Definition resume {A : Type} (lang : jsstring) (a : Answer) (p : Async A)
    : option (Async A) :=
  match p, a with
  | AwaitFetch _ k, FetchSettled r => Some (advance lang (k r))
  | AwaitJson _ k, JsonSettled d => Some (advance lang (k d))
  | _, _ => None
  end.

(** One computation fed the answers of a script in order, each with the
    value [targetLang] has when it arrives. *)
Fixpoint feed {A : Type} (script : list (jsstring * Answer)) (p : Async A)
    : option (Async A) :=
  match script with
  | [] => Some p
  | (lang, a) :: rest =>
      match resume lang a p with
      | Some p' => feed rest p'
      | None => None
      end
  end.

(** The request a computation has in flight, if it awaits a [fetch]. *)
Definition pendingFetch {A : Type} (p : Async A) : list Request :=
  match p with
  | AwaitFetch req _ => [req]
  | _ => []
  end.

(** The batch of [Promise.all(customTemplates.map(...))] between two tasks of
    the event loop, when no microtask is left to run: one computation per
    template, and the requests sent so far, oldest first. *)
Record Batch := mkBatch {
  tasks : list (Async Template);
  issued : list Request
}.

(** A call has settled its promise by the time it returns: it returned or
    threw without awaiting. *)
Definition settledAtOnce {A : Type} (p : Async A) : bool :=
  match p with
  | Return _ | Throw _ => true
  | _ => false
  end.

(** [map] calls the callback on every template in turn.  A callback reads
    [targetLang], calls [translateTextForce] on the subject, which sends its
    request unless the subject is empty, and awaits the promise of the call
    (line 289); then [map] goes on to the next template.  A callback whose
    call has settled at once has yielded all the same: it resumes in a
    microtask, once [map] has gone through the whole dataset, and these
    callbacks resume in the order of the dataset, each up to the request of
    its body.  So the requests of the subjects come first, and after them the
    requests of the bodies of the templates without a subject.  [tasks] and
    [issued] are the batch when the microtasks have run, before any answer
    of the network. *)
Definition launch (lang : jsstring) (customTemplates : list Template) : Batch :=
  let subjectCall t := translateTextForce (subject t) lang in
  {| tasks :=
       List.map (fun t => advance lang (translateTemplate t)) customTemplates;
     issued :=
       flat_map (fun t => pendingFetch (subjectCall t)) customTemplates
       ++ flat_map
            (fun t =>
               if settledAtOnce (subjectCall t)
               then pendingFetch (advance lang (translateTemplate t))
               else [])
            customTemplates |}.

(** The answer [a] arrives for the computation of template [i]. *)
Definition deliver (i : nat) (lang : jsstring) (a : Answer) (b : Batch)
    : option Batch :=
  match tasks b !! i with
  | None => None
  | Some p =>
      match resume lang a p with
      | None => None
      | Some p' =>
          Some {| tasks := <[i := p']> (tasks b);
                  issued := issued b ++ pendingFetch p' |}
      end
  end.

(** [Promise.all]: fulfilled with all the values, in order, once every
    computation has returned; rejected once one has thrown. *)
Fixpoint promiseAll (ts : list (Async Template)) : option (Settled (list Template)) :=
  match ts with
  | [] => Some (Fulfilled [])
  | Throw e :: _ => Some (Rejected e)
  | Return r :: rest =>
      match promiseAll rest with
      | Some (Fulfilled rs) => Some (Fulfilled (r :: rs))
      | other => other
      end
  | _ :: rest =>
      match promiseAll rest with
      | Some (Rejected e) => Some (Rejected e)
      | _ => None
      end
  end.

(** Both translation calls of a template, as requests. *)
Definition fieldRequests (lang : jsstring) (t : Template) : list Request :=
  (if falsy (subject t) then [] else [translateRequest (subject t) lang])
  ++ (if falsy (body t) then [] else [translateRequest (body t) lang]).

(** As the specification words the fan-out: once the batch is launched, and
    before any answer has arrived, the calls of every template and field have
    been sent. *)
Definition allCallsIssuedAtLaunch (lang : jsstring)
    (customTemplates : list Template) : Prop :=
  forall t req,
    In t customTemplates -> In req (fieldRequests lang t) ->
    In req (issued (launch lang customTemplates)).

(** The request of a template's subject, and the request of its body when
    it is sent at launch: the template has no subject. *)
Definition subjectRequest (lang : jsstring) (t : Template) : list Request :=
  if falsy (subject t) then [] else [translateRequest (subject t) lang].

Definition bodyRequestAtLaunch (lang : jsstring) (t : Template) : list Request :=
  if falsy (subject t)
  then (if falsy (body t) then [] else [translateRequest (body t) lang])
  else [].

(** The first call a template's computation makes. *)
Definition firstRequest (lang : jsstring) (t : Template) : list Request :=
  if falsy (subject t)
  then (if falsy (body t) then [] else [translateRequest (body t) lang])
  else [translateRequest (subject t) lang].

(** ** Loading (lines 281-305) *)

Section Loading.

Variable toLowerCase : jsstring -> jsstring.

(** [customTemplates], the dataset of [templates.js]. *)
Variable customTemplates : list Template.

(** Lines 282-284, before the batch is launched. *)
Definition fetchTemplates_begin (s : State) : State :=
  let s1 := set_page (set_loadingSection DisplayBlock) s in
  let s2 := set_page (set_progressBar (lit "0%")) s1 in
  set_page (set_progressText
    (if isEn (targetLang s2) then lit "Loading templates" ++ [ELLIPSIS]
     else loadingJa)) s2.

(** Lines 288-301, from the moment the batch has settled with [r]. *)
Definition fetchTemplates_settle (r : Settled (list Template)) (s : State) : State :=
  match r with
  | Fulfilled translated =>
      let s1 := assign_templates translated s in
      let s2 := set_page (set_progressBar (lit "100%")) s1 in
      let s3 := set_page (set_progressText
                  (if isEn (targetLang s2) then lit "Done" else doneJa)) s2 in
      set_page (set_loadingSection DisplayNone) s3
  | Rejected err =>
      let s1 := assign_templates customTemplates s in
      set_page (set_loadingSection DisplayNone) s1
  end.

(** Lines 288-304. *)
Definition fetchTemplates_resume (r : Settled (list Template)) (s : State) : State :=
  renderList toLowerCase (lit "All") []
    (populateCategories (fetchTemplates_settle r s)).

(** Lines 308-313: the listeners of the category selector, the search field
    and the language selector.  The last one starts a load, which goes on
    with [launch] and, once the batch has settled, [fetchTemplates_resume]. *)
Definition onCategoryChange (categoryValue searchValue : jsstring) (s : State) : State :=
  renderList toLowerCase categoryValue searchValue s.

Definition onSearchInput (categoryValue searchValue : jsstring) (s : State) : State :=
  renderList toLowerCase categoryValue searchValue s.

Definition onLangChange (langValue : jsstring) (s : State) : State * Batch :=
  let s1 := set_targetLang langValue s in
  (fetchTemplates_begin s1, launch (targetLang s1) customTemplates).

End Loading.

(** ** The copied e-mail, as the specification lays it out *)

(** [Subject: {S}\n\n{greeting}\n\n{B}\n\n{closing}\n[Your Name]]. *)
Definition emailFormat (S greetingText B closingText : jsstring) : jsstring :=
  lit "Subject: " ++ S ++ [NEWLINE; NEWLINE] ++ greetingText
  ++ [NEWLINE; NEWLINE] ++ B ++ [NEWLINE; NEWLINE] ++ closingText
  ++ [NEWLINE] ++ lit "[Your Name]".

(** ** Sample data for running the model *)

Definition salesTemplate : Template :=
  {| subject := lit "a"; body := lit "b"; category := Some (lit "Sales") |}.
Definition supportTemplate : Template :=
  {| subject := lit "Reset"; body := lit "Password help"; category := Some (lit "Support") |}.
Definition uncategorised : Template :=
  {| subject := lit "Hello"; body := lit "World"; category := None |}.

(** The scenario of the specification: a body of 200 characters. *)
Definition longTemplate : Template :=
  {| subject := lit "Intro"; body := repeat 120%N 200; category := Some (lit "Sales") |}.

Definition emptyPage : Page :=
  {| listEl := []; categorySel := []; countEl := lit "0";
     loadingSection := DisplayUnset; progressBar := None; progressText := None |}.

(** A network on which every [fetch] is rejected. *)
Definition offlineNetwork : Network :=
  {| onFetch := fun _ => Rejected NetworkError;
     onJson := fun _ => Rejected SyntaxError |}.

(** A network that answers every request with its text between brackets. *)
Definition bracketNetwork : Network :=
  {| onFetch := fun req => Fulfilled {| responseStatus := 200%N; responseBody := reqQ req |};
     onJson := fun res =>
       Fulfilled (DataValue (Some (lit "[" ++ responseBody res ++ lit "]"))) |}.

(** A network that rejects the request for the text [a] and answers every
    other request as [bracketNetwork] does. *)
Definition flakyNetwork : Network :=
  {| onFetch := fun req =>
       if str_eqb (reqQ req) (lit "a") then Rejected NetworkError
       else onFetch bracketNetwork req;
     onJson := onJson bracketNetwork |}.

(** The state after a load that produced [ts]. *)
Definition loaded (ts : list Template) : State :=
  fetchTemplates_resume asciiLower [] (Fulfilled ts)
    (fetchTemplates_begin (initialState emptyPage)).

(** A code unit that is none of [<], [>], the double quote and the
    apostrophe. *)
Definition markupFree (x : unit16) : Prop :=
  x <> LT /\ x <> GT /\ x <> QUOT /\ x <> APOS.

(** ** The page as a whole (lines 307-316) *)

(** What can happen to the page once the script has run: the listeners of
    lines 308-313 fire, a batch started by [fetchTemplates] settles, the user
    acts on the modal or on a copy control, a copy timer expires.
    [CardCopyClicked t] is a click on the copy control of a card built for
    [t]. *)
Inductive AppEvent :=
| CategoryChanged (categoryValue searchValue : jsstring)
| SearchTyped (categoryValue searchValue : jsstring)
| LangChanged (langValue : jsstring)
| BatchSettled (r : Settled (list Template))
| ModalAction (ev : ModalEvent)
| ModalCopyClicked (writeOk : bool)
| ModalCopyTimer
| CardCopyClicked (t : Template) (writeOk : bool).

Section App.

Variable toLowerCase : jsstring -> jsstring.
Variable customTemplates : list Template.

Definition appStep (ev : AppEvent) (s : State) : State :=
  match ev with
  | CategoryChanged c q => onCategoryChange toLowerCase c q s
  | SearchTyped c q => onSearchInput toLowerCase c q s
  | LangChanged v => fst (onLangChange customTemplates v s)
  | BatchSettled r => fetchTemplates_resume toLowerCase customTemplates r s
  | ModalAction e => modalStep e s
  | ModalCopyClicked ok => modalCopyClick ok s
  | ModalCopyTimer => modalCopyTimeout s
  | CardCopyClicked t ok =>
      fst (cardCopyClick t (mkCopyIcon copyIconText false) ok s)
  end.

Definition runApp (evs : list AppEvent) (s : State) : State :=
  fold_left (fun st ev => appStep ev st) evs s.

End App.


(** The count readout and the category dropdown say what the lists hold. *)
Definition countInSync (s : State) : Prop :=
  countEl (page s)
  = ofNat (length (displayedList s)) ++ lit " / " ++ ofNat (length (templatesList s)).

Definition dropdownInSync (s : State) : Prop :=
  categorySel (page s) = categoriesOf (templatesList s).

(** What [showModal] writes for the template [t] at index [idx] of a displayed
    list of [len] entries, on a modal element whose [display] is [d]. *)
Definition modalFor (lang : jsstring) (len : nat) (idx : Z) (d : Display)
    (t : Template) : Modal :=
  {| modalDisplay := d;
     modalContent := Some
       {| modalTitle := escapeHtml (Some (subject t));
          modalBadge := escapeHtml (Some (orElse (category t) (lit "General")));
          modalGreeting := greeting lang;
          modalFullBody := escapeHtml (Some (body t));
          modalClosing := closing lang ++ lit "<br>[Your Name]" |};
     prevDisabled := idx <=? 0;
     nextDisabled := idx >=? Z.of_nat len - 1;
     modalCopyText := lit "Copy Email" |}.

(** The modal element is there and shows the template at the current index,
    whenever the index is not negative. *)
Definition modalShowsIndex (s : State) : Prop :=
  0 <= modalIndex s ->
  exists m t,
    modalEl s = Some m
    /\ arrayGet (displayedList s) (modalIndex s) = Some t
    /\ m = modalFor (targetLang s) (length (displayedList s)) (modalIndex s)
            (modalDisplay m) t.

(** ** Batches along their deliveries *)

(** A computation never throws and sends only requests that satisfy [P],
    whatever answers it gets. *)
Fixpoint behaves {A : Type} (P : Request -> Prop) (p : Async A) : Prop :=
  match p with
  | Return _ => True
  | Throw _ => False
  | AwaitFetch req k => P req /\ forall r, behaves P (k r)
  | AwaitJson _ k => forall r, behaves P (k r)
  | ReadTargetLang k => forall l, behaves P (k l)
  end.

(** A request as [translateTextForce] builds it, for a text that is not
    empty. *)
Definition translationRequest (req : Request) : Prop :=
  reqQ req <> []
  /\ req = translateRequest (reqQ req) (reqTarget req).

(** Answers arriving one after the other: for which template, with which
    value of [targetLang] at that moment, and what. *)
Fixpoint deliverAll (ds : list (nat * jsstring * Answer)) (b : Batch)
    : option Batch :=
  match ds with
  | [] => Some b
  | (i, l, a) :: rest =>
      match deliver i l a b with
      | Some b' => deliverAll rest b'
      | None => None
      end
  end.

(** The answers of [ds] that are for template [i], in their order. *)
Fixpoint answersFor (i : nat) (ds : list (nat * jsstring * Answer))
    : list (jsstring * Answer) :=
  match ds with
  | [] => []
  | (j, l, a) :: rest =>
      if (j =? i)%nat then (l, a) :: answersFor i rest else answersFor i rest
  end.

(** The computation of a template, somewhere along its run. *)
Definition descendantOf (t : Template) (p : Async Template) : Prop :=
  exists l script, feed script (advance l (translateTemplate t)) = Some p.

(** What every batch keeps, from its launch on: each computation is the one
    of its template somewhere along its run, none can throw, and only
    requests for texts that are not empty are sent. *)
Definition batchSound (customTemplates : list Template) (b : Batch) : Prop :=
  Forall2 descendantOf customTemplates (tasks b)
  /\ Forall (behaves translationRequest) (tasks b)
  /\ Forall translationRequest (issued b).

(** * Properties *)

(** ** Strings *)

Lemma str_eqb_eq (a b : jsstring) : str_eqb a b = true <-> a = b.
Proof.
  revert b; induction a as [|x a IH]; intros [|y b]; simpl; split;
    try congruence; try reflexivity.
  - intros H. apply andb_true_iff in H as [Hx Hr].
    apply N.eqb_eq in Hx. apply IH in Hr. congruence.
  - intros H. injection H as -> ->. apply andb_true_iff. split.
    + apply N.eqb_refl.
    + apply IH. reflexivity.
Qed.

Lemma str_eqb_refl (a : jsstring) : str_eqb a a = true.
Proof. apply str_eqb_eq. reflexivity. Qed.


Lemma orElse_Some_id (s : jsstring) : orElse (Some s) [] = s.
Proof. destruct s; reflexivity. Qed.

Lemma falsy_nil (s : jsstring) : falsy s = true <-> s = [].
Proof. destruct s; simpl; split; congruence. Qed.

Lemma startsWith_prefix (h n : jsstring) :
  startsWith h n = true <-> exists post, h = n ++ post.
Proof.
  revert h; induction n as [|y n IH]; intros h; simpl.
  - split; [intros _; exists h; reflexivity | reflexivity].
  - destruct h as [|x h].
    + split; [congruence | intros [post H]; discriminate H].
    + rewrite andb_true_iff, N.eqb_eq, IH. split.
      * intros [-> [post ->]]. exists post. reflexivity.
      * intros [post H]. injection H as -> ->. split; [reflexivity | eauto].
Qed.

Lemma includes_substring (h n : jsstring) :
  includes h n = true <-> substring n h.
Proof.
  unfold substring. induction h as [|x h IH]; simpl.
  - rewrite orb_false_r, startsWith_prefix. split.
    + intros [post H]. exists [], post. exact H.
    + intros [pre [post H]]. destruct pre as [|p pre]; [eauto|discriminate H].
  - rewrite orb_true_iff, startsWith_prefix, IH. split.
    + intros [[post H] | [pre [post H]]].
      * exists [], post. exact H.
      * exists (x :: pre), post. simpl. congruence.
    + intros [pre [post H]]. destruct pre as [|p pre].
      * left. exists post. exact H.
      * right. injection H as -> ->. eauto.
Qed.

Lemma replaceAll_app (c : unit16) (r a b : jsstring) :
  replaceAll c r (a ++ b) = replaceAll c r a ++ replaceAll c r b.
Proof. unfold replaceAll. apply flat_map_app. Qed.

Lemma replaceAll_flat_map (c : unit16) (r : jsstring)
    (f : unit16 -> jsstring) (s : jsstring) :
  replaceAll c r (flat_map f s) = flat_map (fun x => replaceAll c r (f x)) s.
Proof.
  induction s as [|x s IH]; simpl; [reflexivity|].
  rewrite replaceAll_app, IH. reflexivity.
Qed.

Lemma replaceAll_as_flat_map (c : unit16) (r s : jsstring) :
  replaceAll c r s = flat_map (fun x => replaceAll c r [x]) s.
Proof.
  unfold replaceAll. apply flat_map_ext. intros x. simpl.
  rewrite app_nil_r. reflexivity.
Qed.

Lemma replaceAll_other (c x : unit16) (r : jsstring) :
  x <> c -> replaceAll c r [x] = [x].
Proof.
  intros H. unfold replaceAll. simpl.
  apply N.eqb_neq in H. rewrite H. reflexivity.
Qed.

(** ** The sanitizer *)

(** The five passes of [escapeHtml] on one code unit. *)
Lemma escape_passes_unit (x : unit16) :
  replaceAll APOS (lit "&#039;")
    (replaceAll QUOT (lit "&quot;")
      (replaceAll GT (lit "&gt;")
        (replaceAll LT (lit "&lt;")
          (replaceAll AMP (lit "&amp;") [x]))))
  = escapeUnit x.
Proof.
  unfold escapeUnit.
  destruct (N.eqb_spec x AMP) as [->|Hamp]; [reflexivity|].
  rewrite (replaceAll_other AMP) by assumption.
  destruct (N.eqb_spec x LT) as [->|Hlt]; [reflexivity|].
  rewrite (replaceAll_other LT) by assumption.
  destruct (N.eqb_spec x GT) as [->|Hgt]; [reflexivity|].
  rewrite (replaceAll_other GT) by assumption.
  destruct (N.eqb_spec x QUOT) as [->|Hquot]; [reflexivity|].
  rewrite (replaceAll_other QUOT) by assumption.
  destruct (N.eqb_spec x APOS) as [->|Hapos]; [reflexivity|].
  apply replaceAll_other. assumption.
Qed.

Lemma escapeHtml_flat_map (s : jsstring) :
  escapeHtml (Some s) = flat_map escapeUnit s.
Proof.
  unfold escapeHtml. cbv zeta. rewrite orElse_Some_id.
  rewrite (replaceAll_as_flat_map AMP).
  rewrite !replaceAll_flat_map.
  apply flat_map_ext. intros x. apply escape_passes_unit.
Qed.

(** With the ampersand replaced last, the references of the earlier passes
    are escaped a second time. *)
Lemma escapeHtml_amp_last_double_escapes :
  escapeHtml_amp_last (Some (lit "<")) = lit "&amp;lt;"
  /\ escapeHtml (Some (lit "<")) = lit "&lt;".
Proof. split; reflexivity. Qed.

(** C5, as stated, fails on the apostrophe: the source writes the numeric
    reference [&#039;], not the named reference [&apos;]. *)
Lemma escapeHtml_apostrophe_not_named :
  escapeHtml (Some [APOS]) = lit "&#039;"
  /\ escapeHtml (Some [APOS]) <> escapeHtml_named (Some [APOS]).
Proof. split; [reflexivity | discriminate]. Qed.

(** C5, amended: for every input string [escapeHtml] returns the string in
    which every [&], [<], [>] and double quote is replaced by its named
    reference ([&amp;], [&lt;], [&gt;], [&quot;]) and every apostrophe by the
    numeric reference [&#039;]; all other code units are kept, in order.  The
    ampersand pass runs first, so the ampersands the later passes write are
    not escaped again.  An absent input gives the empty string, as the empty
    input does. *)
Theorem escapeHtml_replaces_five (s : jsstring) :
  escapeHtml (Some s) = flat_map escapeUnit s
  /\ escapeUnit AMP = lit "&amp;"
  /\ escapeUnit LT = lit "&lt;"
  /\ escapeUnit GT = lit "&gt;"
  /\ escapeUnit QUOT = lit "&quot;"
  /\ escapeUnit APOS = lit "&#039;"
  /\ (forall x, x <> AMP -> x <> LT -> x <> GT -> x <> QUOT -> x <> APOS ->
        escapeUnit x = [x])
  /\ escapeHtml None = []
  /\ escapeHtml None = escapeHtml (Some []).
Proof.
  split; [apply escapeHtml_flat_map|].
  repeat (split; [reflexivity|]).
  split; [|split; reflexivity].
  intros x H1 H2 H3 H4 H5. unfold escapeUnit.
  apply N.eqb_neq in H1, H2, H3, H4, H5.
  rewrite H1, H2, H3, H4, H5. reflexivity.
Qed.

(** ** The card preview *)

Lemma previewText_long (t : Template) :
  (140 < length (body t))%nat ->
  previewText t = firstn 140 (body t) ++ [ELLIPSIS].
Proof.
  intros H. unfold previewText, slice0. rewrite orElse_Some_id.
  apply Nat.ltb_lt in H. rewrite H. reflexivity.
Qed.

Lemma previewText_short (t : Template) :
  (length (body t) <= 140)%nat -> previewText t = body t.
Proof.
  intros H. unfold previewText. rewrite orElse_Some_id.
  apply Nat.ltb_ge in H. rewrite H. reflexivity.
Qed.

(** C6: a body longer than 140 code units is previewed as its first 140 code
    units followed by the one-unit ellipsis, 141 units in all; a body of at
    most 140 units is previewed as it is, and then no unit is added.  The
    card shows the sanitized preview. *)
Theorem card_preview_truncates (lang : jsstring) (t : Template) (idx : Z) :
  ((140 < length (body t))%nat ->
     previewText t = firstn 140 (body t) ++ [ELLIPSIS]
     /\ length (previewText t) = 141%nat)
  /\ ((length (body t) <= 140)%nat -> previewText t = body t)
  /\ cardPreviewBody (createCard lang t idx) = escapeHtml (Some (previewText t)).
Proof.
  split; [|split].
  - intros H. rewrite (previewText_long t H). split; [reflexivity|].
    rewrite length_app, length_firstn, Nat.min_l by lia. reflexivity.
  - apply previewText_short.
  - reflexivity.
Qed.

(** C6 on the scenario of the specification: 200 characters give a preview
    of 141; a short body is shown as it is. *)
Lemma card_preview_scenario :
  length (previewText longTemplate) = 141%nat
  /\ previewText supportTemplate = body supportTemplate.
Proof.
  split.
  - apply (proj1 (card_preview_truncates [] longTemplate 0)).
    vm_compute. lia.
  - apply (proj1 (proj2 (card_preview_truncates [] supportTemplate 0))).
    vm_compute. lia.
Defined.

(** ** The copied e-mail *)

Lemma arrayGet_Some_nonneg {A} (a : list A) (i : Z) (x : A) :
  arrayGet a i = Some x -> 0 <= i /\ a !! Z.to_nat i = Some x.
Proof.
  unfold arrayGet. destruct (Z.ltb_spec i 0); [discriminate|].
  intros H'. split; [lia | exact H'].
Qed.

Lemma greeting_closing_pairs :
  greeting (lit "en") = lit "Good day Sir/Ma'am,"
  /\ closing (lit "en") = lit "Best regards,"
  /\ greeting (lit "ja") = greetingJa
  /\ closing (lit "ja") = closingJa.
Proof. repeat split; reflexivity. Qed.



(** ** Stores and the list rebuild *)

Lemma deref_alloc_new (h : Heap) (a : list Template) :
  deref (h ++ [a]) (length h) = a.
Proof.
  unfold deref. rewrite list_lookup_middle by reflexivity. reflexivity.
Qed.

Lemma deref_alloc_old (h : Heap) (a : list Template) (r : Ref) :
  (r < length h)%nat -> deref (h ++ [a]) r = deref h r.
Proof.
  intros H. unfold deref. rewrite lookup_app_l by exact H. reflexivity.
Qed.

Section RenderingFacts.

Variable toLowerCase : jsstring -> jsstring.

(** What [renderList] does to every part of the state but the page. *)
Lemma renderList_state (cat search : jsstring) (s : State) :
  let s' := renderList toLowerCase cat search s in
  heap s' = heap s ++ [List.filter (keepTemplate toLowerCase cat (toLowerCase search))
                         (templatesList s)]
  /\ templates s' = templates s
  /\ displayed s' = length (heap s)
  /\ targetLang s' = targetLang s
  /\ modalIndex s' = modalIndex s
  /\ modalEl s' = modalEl s
  /\ clipboard s' = clipboard s
  /\ alerts s' = alerts s.
Proof.
  unfold renderList. cbv zeta. rewrite orElse_Some_id.
  destruct (length _ =? 0)%nat; repeat split; reflexivity.
Qed.

Lemma renderList_displayedList (cat search : jsstring) (s : State) :
  displayedList (renderList toLowerCase cat search s)
  = List.filter (keepTemplate toLowerCase cat (toLowerCase search)) (templatesList s).
Proof.
  destruct (renderList_state cat search s) as (Hh & _ & Hd & _).
  unfold displayedList. rewrite Hh, Hd. apply deref_alloc_new.
Qed.

Lemma renderList_templatesList (cat search : jsstring) (s : State) :
  (templates s < length (heap s))%nat ->
  templatesList (renderList toLowerCase cat search s) = templatesList s.
Proof.
  intros Hwf.
  destruct (renderList_state cat search s) as (Hh & Ht & _).
  unfold templatesList. rewrite Hh, Ht. apply deref_alloc_old. exact Hwf.
Qed.

End RenderingFacts.

(** ** Selecting with a predicate *)

Lemma filter_selects {A : Type} (f : A -> bool) (P : A -> Prop) (l : list A) :
  (forall x, f x = true <-> P x) -> selects P l (List.filter f l).
Proof.
  intros Hf. induction l as [|x l IH]; simpl.
  - constructor.
  - destruct (f x) eqn:E.
    + apply selects_keep; [apply Hf; exact E | exact IH].
    + apply selects_drop; [|exact IH].
      intros HP. apply Hf in HP. congruence.
Qed.

Lemma selects_functional {A : Type} (P : A -> Prop) (l l1 l2 : list A) :
  selects P l l1 -> selects P l l2 -> l1 = l2.
Proof.
  intros H1. revert l2.
  induction H1 as [|x l l1 HP H1 IH|x l l1 HP H1 IH]; intros l2 H2;
    inversion H2; subst; try contradiction; try reflexivity.
  - f_equal. apply IH. assumption.
  - apply IH. assumption.
Qed.

Lemma selects_sublist {A : Type} (P : A -> Prop) (l l' : list A) :
  selects P l l' -> sublist l' l.
Proof.
  induction 1; [constructor | apply sublist_skip | apply sublist_cons];
    assumption.
Qed.

Lemma selects_In {A : Type} (P : A -> Prop) (l l' : list A) :
  selects P l l' -> forall x, In x l' <-> In x l /\ P x.
Proof.
  induction 1 as [|y l l' HP H IH|y l l' HP H IH]; intros x; simpl.
  - tauto.
  - rewrite IH. split.
    + intros [->|[Hin Hx]]; auto.
    + intros [[->|Hin] Hx]; auto.
  - rewrite IH. split.
    + intros [Hin Hx]; auto.
    + intros [[->|Hin] Hx]; [contradiction | auto].
Qed.

Lemma strictEq_Some (v : option jsstring) (s : jsstring) :
  strictEq v s = true <-> v = Some s.
Proof.
  destruct v as [c|]; simpl.
  - rewrite str_eqb_eq. split; congruence.
  - split; discriminate.
Qed.

Lemma asciiLower_nil (s : jsstring) : asciiLower s = [] <-> s = [].
Proof.
  destruct s; simpl; split; intros H; try reflexivity; discriminate H.
Qed.

Section Filtering.

Variable toLowerCase : jsstring -> jsstring.

(** Lower-casing keeps the empty string empty and no other string. *)
Hypothesis toLowerCase_nil : forall s, toLowerCase s = [] <-> s = [].

Lemma category_gate (cat : jsstring) (t : Template) :
  negb (str_eqb cat (lit "All")) && negb (strictEq (category t) cat) = false
  <-> categoryMatches cat t.
Proof.
  unfold categoryMatches.
  rewrite andb_false_iff, !negb_false_iff, str_eqb_eq, strictEq_Some. tauto.
Qed.

(** The callback of the source keeps exactly the templates the joined-text
    predicate describes. *)
Lemma keepTemplate_matchesJoined (cat search : jsstring) (t : Template) :
  keepTemplate toLowerCase cat (toLowerCase search) t = true
  <-> matchesJoined toLowerCase cat search t.
Proof.
  unfold keepTemplate, matchesJoined.
  destruct (negb (str_eqb cat (lit "All")) && negb (strictEq (category t) cat))
    eqn:Egate.
  - split; [discriminate|]. intros [Hcat _].
    apply category_gate in Hcat. congruence.
  - apply category_gate in Egate.
    destruct (falsy (toLowerCase search)) eqn:Eq.
    + apply (proj1 (falsy_nil _)) in Eq.
      apply (proj1 (toLowerCase_nil _)) in Eq.
      split; [intros _; split; [exact Egate | left; exact Eq] | reflexivity].
    + assert (search <> []) as Hne.
      { intros ->. destruct (toLowerCase_nil []) as [_ H0].
        rewrite H0 in Eq by reflexivity. discriminate Eq. }
      change (lit " ") with [SPACE].
      rewrite includes_substring. unfold joinedText. tauto.
Qed.

End Filtering.

(** ** The displayed list *)

(** C1, as stated, fails: with subject [a] and body [b] the search [ab]
    occurs in the concatenation of the fields, so the stated predicate holds,
    yet the source joins the fields with spaces and shows nothing. *)
Lemma renderList_concatenation_fails :
  matchesStated asciiLower (lit "All") (lit "ab") salesTemplate
  /\ templatesList (loaded [salesTemplate]) = [salesTemplate]
  /\ displayedList (renderList asciiLower (lit "All") (lit "ab")
                      (loaded [salesTemplate])) = []
  /\ ~ selects (matchesStated asciiLower (lit "All") (lit "ab"))
         (templatesList (loaded [salesTemplate]))
         (displayedList (renderList asciiLower (lit "All") (lit "ab")
                           (loaded [salesTemplate]))).
Proof.
  assert (matchesStated asciiLower (lit "All") (lit "ab") salesTemplate) as Hm.
  { split; [right; reflexivity|]. right. exists [], (lit "sales"). reflexivity. }
  assert (templatesList (loaded [salesTemplate]) = [salesTemplate]) as Ht
    by reflexivity.
  assert (displayedList (renderList asciiLower (lit "All") (lit "ab")
                           (loaded [salesTemplate])) = []) as Hd
    by (vm_compute; reflexivity).
  split; [exact Hm|]. split; [exact Ht|]. split; [exact Hd|].
  rewrite Ht, Hd. intros Hsel. inversion Hsel; subst. contradiction.
Qed.

(** C1, amended: for every list of templates, selected category and search
    string, [renderList] sets [displayed] to exactly the ordered subsequence
    of [templates] whose entries satisfy: (category equals the selected
    category, or the selected category is "All") and (the search string is
    empty, or the lower-cased text "subject, space, body, space, category"
    contains the lower-cased search string).  [templates] keeps its array and
    its contents; [displayed] is a new array of the store, and no array
    that was there before is written to. *)
Theorem renderList_displays_matching
    (toLowerCase : jsstring -> jsstring)
    (Hlower : forall x, toLowerCase x = [] <-> x = [])
    (cat search : jsstring) (s : State) (Hwf : wellFormed s) :
  let s' := renderList toLowerCase cat search s in
  selects (matchesJoined toLowerCase cat search)
    (templatesList s) (displayedList s')
  /\ sublist (displayedList s') (templatesList s)
  /\ templatesList s' = templatesList s
  /\ templates s' = templates s
  /\ displayed s' = length (heap s)
  /\ displayed s' <> templates s'
  /\ displayed s' <> displayed s
  /\ (forall r : nat, (r < length (heap s))%nat -> heap s' !! r = heap s !! r).
Proof.
  intros s'. destruct Hwf as [Hwt Hwd].
  destruct (renderList_state toLowerCase cat search s)
    as (Hh & Ht & Hd & _).
  fold s' in Hh, Ht, Hd.
  assert (selects (matchesJoined toLowerCase cat search)
            (templatesList s) (displayedList s')) as Hsel.
  { unfold s'. rewrite renderList_displayedList.
    apply filter_selects. intros t.
    apply keepTemplate_matchesJoined. exact Hlower. }
  split; [exact Hsel|].
  split; [eapply selects_sublist; exact Hsel|].
  split; [apply renderList_templatesList; exact Hwt|].
  split; [exact Ht|].
  split; [exact Hd|].
  split; [rewrite Hd, Ht; lia|].
  split; [rewrite Hd; lia|].
  intros r Hr. rewrite Hh. apply lookup_app_l. exact Hr.
Qed.

(** C1, amended, on a run: category "Support", search "PASS". *)
Lemma renderList_displays_matching_witness :
  (forall x, asciiLower x = [] <-> x = [])
  /\ wellFormed (loaded [salesTemplate; supportTemplate; uncategorised])
  /\ selects (matchesJoined asciiLower (lit "Support") (lit "PASS"))
       (templatesList (loaded [salesTemplate; supportTemplate; uncategorised]))
       (displayedList
          (renderList asciiLower (lit "Support") (lit "PASS")
             (loaded [salesTemplate; supportTemplate; uncategorised]))).
Proof.
  split; [exact asciiLower_nil|].
  split; [unfold wellFormed; simpl; lia|].
  apply (renderList_displays_matching asciiLower asciiLower_nil
           (lit "Support") (lit "PASS")
           (loaded [salesTemplate; supportTemplate; uncategorised])).
  unfold wellFormed; simpl; lia.
Defined.

(** The scenario of the specification: of a "Sales" and a "Support"
    template, selecting "Support" with an empty search shows the second. *)
Example renderList_support_scenario :
  displayedList (renderList asciiLower (lit "Support") []
                   (loaded [salesTemplate; supportTemplate]))
  = [supportTemplate].
Proof. vm_compute. reflexivity. Qed.

(** ** Categories *)

Lemma existsb_str_eqb (x : jsstring) (set : list jsstring) :
  existsb (str_eqb x) set = true <-> In x set.
Proof.
  rewrite existsb_exists. split.
  - intros [y [Hin Heq]]. apply str_eqb_eq in Heq. subst. exact Hin.
  - intros Hin. exists x. split; [exact Hin | apply str_eqb_refl].
Qed.

Lemma setAdd_In (x y : jsstring) (set : list jsstring) :
  In y (setAdd x set) <-> y = x \/ In y set.
Proof.
  unfold setAdd. destruct (existsb (str_eqb x) set) eqn:E.
  - apply existsb_str_eqb in E. split; [auto|]. intros [->|H]; assumption.
  - rewrite in_app_iff. simpl. intuition congruence.
Qed.

Lemma fold_setAdd_In (x : jsstring) (ts : list Template) (acc : list jsstring) :
  In x (fold_left (fun set t => setAdd (orElse (category t) (lit "General")) set)
          ts acc)
  <-> In x acc \/ exists t, In t ts /\ orElse (category t) (lit "General") = x.
Proof.
  revert acc. induction ts as [|t ts IH]; intros acc; simpl.
  - split; [auto|]. intros [H|[t [[] _]]]. exact H.
  - rewrite IH, setAdd_In. split.
    + intros [[->|H]|[u [Hu Hx]]]; eauto.
    + intros [H|[u [[->|Hu] Hx]]]; eauto.
Qed.

Lemma categoriesOf_In (x : jsstring) (ts : list Template) :
  In x (categoriesOf ts)
  <-> x = lit "All"
      \/ exists t, In t ts /\ orElse (category t) (lit "General") = x.
Proof.
  unfold categoriesOf. rewrite fold_setAdd_In. simpl.
  intuition congruence.
Qed.

(** C10: a template without a category is listed under "General" in the
    dropdown, and selecting "General" with an empty search leaves it out of
    [displayed]: the filter compares the absent field itself with "General". *)
Theorem absent_category_listed_but_filtered_out
    (toLowerCase : jsstring -> jsstring) (s : State) (t : Template)
    (Hin : In t (templatesList s)) (Habsent : category t = None) :
  In (lit "General") (categorySel (page (populateCategories s)))
  /\ strictEq (category t) (lit "General") = false
  /\ keepTemplate toLowerCase (lit "General") (toLowerCase []) t = false
  /\ ~ In t (displayedList (renderList toLowerCase (lit "General") [] s)).
Proof.
  assert (keepTemplate toLowerCase (lit "General") (toLowerCase []) t = false)
    as Hkeep.
  { unfold keepTemplate. rewrite Habsent. reflexivity. }
  split.
  - simpl. apply categoriesOf_In. right. exists t. split; [exact Hin|].
    rewrite Habsent. reflexivity.
  - split; [rewrite Habsent; reflexivity|].
    split; [exact Hkeep|].
    rewrite renderList_displayedList. intros Hd.
    apply filter_In in Hd as [_ Hk]. congruence.
Qed.

(** C10 on a run: a dataset with one template without a category. *)
Lemma absent_category_witness :
  In uncategorised (templatesList (loaded [salesTemplate; uncategorised]))
  /\ In (lit "General")
       (categorySel (page (populateCategories (loaded [salesTemplate; uncategorised]))))
  /\ ~ In uncategorised
         (displayedList (renderList asciiLower (lit "General") []
                           (loaded [salesTemplate; uncategorised]))).
Proof.
  assert (In uncategorised (templatesList (loaded [salesTemplate; uncategorised])))
    as Hin by (simpl; auto).
  split; [exact Hin|].
  destruct (absent_category_listed_but_filtered_out asciiLower
              (loaded [salesTemplate; uncategorised]) uncategorised
              Hin eq_refl) as (H1 & _ & _ & H2).
  split; assumption.
Defined.

(** ** The list rebuild and the modal index *)

Lemma renderList_set_modalIndex (toLowerCase : jsstring -> jsstring)
    (cat search : jsstring) (m : Z) (s : State) :
  renderList toLowerCase cat search (set_modalIndex m s)
  = set_modalIndex m (renderList toLowerCase cat search s).
Proof.
  unfold renderList. cbv zeta.
  change (templatesList (set_page (set_listEl []) (set_modalIndex m s)))
    with (templatesList (set_page (set_listEl []) s)).
  set (kept := List.filter _ _).
  change (displayedList (updateCount (assign_displayed kept
            (set_page (set_listEl []) (set_modalIndex m s)))))
    with (displayedList (updateCount (assign_displayed kept
            (set_page (set_listEl []) s)))).
  destruct (length _ =? 0)%nat; reflexivity.
Qed.

(** C9: [renderList] neither reads nor writes [modalIndex]: the index and
    the modal element are the same after every rebuild, and a rebuild from a
    state with another index differs in the index alone.  So, with the modal
    open, a rebuild can leave the index outside the new list, or on another
    template, as the two runs show. *)
Theorem renderList_frames_modalIndex (toLowerCase : jsstring -> jsstring) :
  (forall cat search s,
      modalIndex (renderList toLowerCase cat search s) = modalIndex s
      /\ modalEl (renderList toLowerCase cat search s) = modalEl s)
  /\ (forall cat search m s,
      renderList toLowerCase cat search (set_modalIndex m s)
      = set_modalIndex m (renderList toLowerCase cat search s))
  /\ (exists s cat search,
        isOpen s /\ indexInRange s
        /\ isOpen (renderList asciiLower cat search s)
        /\ ~ indexInRange (renderList asciiLower cat search s))
  /\ (exists s cat search t t',
        isOpen s
        /\ arrayGet (displayedList s) (modalIndex s) = Some t
        /\ arrayGet (displayedList (renderList asciiLower cat search s))
             (modalIndex (renderList asciiLower cat search s)) = Some t'
        /\ t <> t').
Proof.
  split; [|split; [|split]].
  - intros cat search s.
    destruct (renderList_state toLowerCase cat search s)
      as (_ & _ & _ & _ & Hi & Hm & _).
    split; assumption.
  - intros cat search m s. apply renderList_set_modalIndex.
  - exists (runModal [CardClick 1] (loaded [salesTemplate; supportTemplate])),
      (lit "Support"), [].
    set (s := runModal _ _).
    set (s' := renderList _ _ _ _).
    assert (modalEl s = modalEl s') as Hm by (vm_compute; reflexivity).
    assert (exists m, modalEl s = Some m /\ modalDisplay m = DisplayFlex) as Ho
      by (eexists; split; vm_compute; reflexivity).
    assert (modalIndex s = 1) as Hi by (vm_compute; reflexivity).
    assert (modalIndex s' = 1) as Hi' by (vm_compute; reflexivity).
    assert (length (displayedList s) = 2%nat) as Hl by (vm_compute; reflexivity).
    assert (length (displayedList s') = 1%nat) as Hl' by (vm_compute; reflexivity).
    unfold isOpen, indexInRange. rewrite <- Hm, Hi, Hi', Hl, Hl'.
    split; [exact Ho|]. split; [lia|]. split; [exact Ho|]. lia.
  - exists (runModal [CardClick 0] (loaded [salesTemplate; supportTemplate])),
      (lit "Support"), [], salesTemplate, supportTemplate.
    split; [eexists; split; vm_compute; reflexivity|].
    split; [vm_compute; reflexivity|].
    split; [vm_compute; reflexivity|].
    discriminate.
Qed.

(** ** The modal controller *)

Lemma isOpen_display (s : State) :
  isOpen s <-> modalDisplayOf s = Some DisplayFlex.
Proof.
  unfold isOpen, modalDisplayOf. destruct (modalEl s) as [m|]; simpl.
  - split.
    + intros [m' [Hm Hd]]. injection Hm as <-. congruence.
    + intros H. exists m. split; congruence.
  - split; [intros [m [H _]]; discriminate H | discriminate].
Qed.

(** [showModal] writes the modal's content and buttons only. *)
Lemma showModal_frame (s : State) :
  heap (showModal s) = heap s
  /\ displayed (showModal s) = displayed s
  /\ modalIndex (showModal s) = modalIndex s
  /\ modalDisplayOf (showModal s) = modalDisplayOf s.
Proof.
  unfold showModal, modalDisplayOf. cbv zeta.
  destruct (_ || _); [repeat split; reflexivity|].
  destruct (arrayGet _ _); [|repeat split; reflexivity].
  destruct (modalEl s) eqn:E; simpl; rewrite ?E; repeat split; reflexivity.
Qed.

Lemma showModal_displayedList (s : State) :
  displayedList (showModal s) = displayedList s.
Proof.
  destruct (showModal_frame s) as (Hh & Hd & _).
  unfold displayedList. rewrite Hh, Hd. reflexivity.
Qed.

Lemma openModalByIndex_out_of_range (i : Z) (s : State) :
  i < 0 \/ Z.of_nat (length (displayedList s)) <= i ->
  openModalByIndex i s = s.
Proof.
  intros H. unfold openModalByIndex.
  destruct (Z.ltb_spec i 0); simpl; [reflexivity|].
  destruct (Z.geb_spec i (Z.of_nat (length (displayedList s)))); [reflexivity|].
  lia.
Qed.

Lemma showPrevModal_at_first (s : State) :
  modalIndex s <= 0 -> showPrevModal s = s.
Proof.
  intros H. unfold showPrevModal.
  destruct (Z.gtb_spec (modalIndex s) 0); [lia | reflexivity].
Qed.

Lemma showNextModal_at_last (s : State) :
  Z.of_nat (length (displayedList s)) - 1 <= modalIndex s ->
  showNextModal s = s.
Proof.
  intros H. unfold showNextModal.
  destruct (Z.ltb_spec (modalIndex s) (Z.of_nat (length (displayedList s)) - 1));
    [lia | reflexivity].
Qed.

Lemma openModalByIndex_displayedList (i : Z) (s : State) :
  displayedList (openModalByIndex i s) = displayedList s.
Proof.
  unfold openModalByIndex. destruct (_ || _); [reflexivity|]. cbv zeta.
  change (displayedList (set_modalEl ?v ?x)) with (displayedList x).
  rewrite showModal_displayedList.
  unfold ensureModal. destruct (modalEl s); reflexivity.
Qed.

Lemma showPrevModal_displayedList (s : State) :
  displayedList (showPrevModal s) = displayedList s.
Proof.
  unfold showPrevModal. destruct (_ >? _); [|reflexivity].
  rewrite showModal_displayedList. reflexivity.
Qed.

Lemma showNextModal_displayedList (s : State) :
  displayedList (showNextModal s) = displayedList s.
Proof.
  unfold showNextModal. destruct (_ <? _); [|reflexivity].
  rewrite showModal_displayedList. reflexivity.
Qed.

Lemma closeModal_displayedList (s : State) :
  displayedList (closeModal s) = displayedList s.
Proof. unfold closeModal. destruct (modalEl s); reflexivity. Qed.

Lemma modalStep_displayedList (ev : ModalEvent) (s : State) :
  displayedList (modalStep ev s) = displayedList s.
Proof.
  destruct ev as [i| | | | |k]; simpl;
    try (destruct (modalEl s); [|reflexivity]);
    auto using openModalByIndex_displayedList, showPrevModal_displayedList,
      showNextModal_displayedList, closeModal_displayedList.
  unfold onKeyDown. destruct (modalEl s) as [m|]; [|reflexivity].
  destruct (modalDisplay m); try reflexivity.
  destruct k;
    auto using showPrevModal_displayedList, showNextModal_displayedList,
      closeModal_displayedList.
Qed.

Lemma showModal_modalIndex (s : State) : modalIndex (showModal s) = modalIndex s.
Proof. apply showModal_frame. Qed.

Lemma openModalByIndex_navigable (i : Z) (s : State) :
  navigable s -> navigable (openModalByIndex i s).
Proof.
  intros Hs. unfold navigable.
  rewrite openModalByIndex_displayedList.
  unfold openModalByIndex.
  destruct (Z.ltb_spec i 0); simpl; [exact Hs|].
  destruct (Z.geb_spec i (Z.of_nat (length (displayedList s)))); [exact Hs|].
  cbv zeta. change (modalIndex (set_modalEl ?v ?x)) with (modalIndex x).
  rewrite showModal_modalIndex. simpl. split; [lia|]. intros _. lia.
Qed.

Lemma showPrevModal_navigable (s : State) :
  navigable s -> navigable (showPrevModal s).
Proof.
  intros [Hr Ho]. unfold navigable.
  rewrite showPrevModal_displayedList. unfold showPrevModal.
  destruct (Z.gtb_spec (modalIndex s) 0); [|split; assumption].
  rewrite showModal_modalIndex. simpl. split; [lia|]. intros _. lia.
Qed.

Lemma showNextModal_navigable (s : State) :
  navigable s -> navigable (showNextModal s).
Proof.
  intros [Hr Ho]. unfold navigable.
  rewrite showNextModal_displayedList. unfold showNextModal.
  destruct (Z.ltb_spec (modalIndex s) (Z.of_nat (length (displayedList s)) - 1));
    [|split; assumption].
  rewrite showModal_modalIndex. simpl. split; [lia|]. intros _. lia.
Qed.

Lemma closeModal_navigable (s : State) :
  navigable s -> navigable (closeModal s).
Proof.
  intros Hs. unfold navigable.
  rewrite closeModal_displayedList. unfold closeModal.
  destruct (modalEl s) as [m|] eqn:E; [|exact Hs].
  simpl. split; [lia|].
  intros Hopen. apply isOpen_display in Hopen. discriminate Hopen.
Qed.

Lemma modalStep_navigable (ev : ModalEvent) (s : State) :
  navigable s -> navigable (modalStep ev s).
Proof.
  intros Hs. destruct ev as [i| | | | |k]; simpl;
    try (destruct (modalEl s); [|exact Hs]);
    auto using openModalByIndex_navigable, showPrevModal_navigable,
      showNextModal_navigable, closeModal_navigable.
  unfold onKeyDown. destruct (modalEl s) as [m|]; [|exact Hs].
  destruct (modalDisplay m); try exact Hs.
  destruct k;
    auto using showPrevModal_navigable, showNextModal_navigable,
      closeModal_navigable.
Qed.

Lemma runModal_navigable (evs : list ModalEvent) (s : State) :
  navigable s ->
  navigable (runModal evs s)
  /\ displayedList (runModal evs s) = displayedList s.
Proof.
  revert s. induction evs as [|ev evs IH]; intros s Hs; simpl.
  - split; [exact Hs | reflexivity].
  - destruct (IH (modalStep ev s) (modalStep_navigable ev s Hs)) as [Hn Hd].
    split; [exact Hn|].
    rewrite Hd. apply modalStep_displayedList.
Qed.

Lemma modalInitial_navigable (s : State) : modalInitial s -> navigable s.
Proof.
  intros [Hi He]. unfold navigable. rewrite Hi. split; [lia|].
  intros [m [Hm _]]. congruence.
Qed.

(** C2: over a fixed displayed list, opening with an index out of range
    changes nothing; [prev] at index 0 and [next] at the last index change
    nothing, from the buttons and from the keyboard alike; and after any
    sequence of events from the initial state the displayed list is the one
    the run started with and, whenever the modal is open, its index lies in
    [0, length - 1]. *)
Theorem modal_index_stays_in_range (s0 : State) (evs : list ModalEvent)
    (Hinit : modalInitial s0) :
  (forall s i, i < 0 \/ Z.of_nat (length (displayedList s)) <= i ->
      openModalByIndex i s = s /\ modalStep (CardClick i) s = s)
  /\ (forall s, modalIndex s = 0 ->
      showPrevModal s = s /\ modalStep PrevClick s = s
      /\ modalStep (KeyDown ArrowLeft) s = s)
  /\ (forall s, modalIndex s = Z.of_nat (length (displayedList s)) - 1 ->
      showNextModal s = s /\ modalStep NextClick s = s
      /\ modalStep (KeyDown ArrowRight) s = s)
  /\ displayedList (runModal evs s0) = displayedList s0
  /\ (isOpen (runModal evs s0) -> indexInRange (runModal evs s0)).
Proof.
  split; [|split; [|split]].
  - intros s i H. split; apply openModalByIndex_out_of_range; exact H.
  - intros s H.
    assert (showPrevModal s = s) as Hp by (apply showPrevModal_at_first; lia).
    split; [exact Hp|]. simpl. unfold onKeyDown.
    destruct (modalEl s) as [m|]; [|split; reflexivity].
    split; [exact Hp|]. destruct (modalDisplay m); try reflexivity. exact Hp.
  - intros s H.
    assert (showNextModal s = s) as Hn by (apply showNextModal_at_last; lia).
    split; [exact Hn|]. simpl. unfold onKeyDown.
    destruct (modalEl s) as [m|]; [|split; reflexivity].
    split; [exact Hn|]. destruct (modalDisplay m); try reflexivity. exact Hn.
  - destruct (runModal_navigable evs s0 (modalInitial_navigable s0 Hinit))
      as [[Hr Ho] Hd].
    split; [exact Hd|].
    intros Hopen. unfold indexInRange. specialize (Ho Hopen). lia.
Qed.

(** C2 on a run that presses [next] past the last index. *)
Lemma modal_index_witness :
  modalInitial (loaded [salesTemplate; supportTemplate; uncategorised])
  /\ isOpen (runModal [CardClick 1; NextClick; NextClick; KeyDown ArrowRight; PrevClick]
               (loaded [salesTemplate; supportTemplate; uncategorised]))
  /\ indexInRange
       (runModal [CardClick 1; NextClick; NextClick; KeyDown ArrowRight; PrevClick]
          (loaded [salesTemplate; supportTemplate; uncategorised])).
Proof.
  assert (modalInitial (loaded [salesTemplate; supportTemplate; uncategorised]))
    as Hinit by (split; vm_compute; reflexivity).
  assert (isOpen (runModal
            [CardClick 1; NextClick; NextClick; KeyDown ArrowRight; PrevClick]
            (loaded [salesTemplate; supportTemplate; uncategorised])))
    as Hopen by (eexists; split; vm_compute; reflexivity).
  split; [exact Hinit|]. split; [exact Hopen|].
  exact (proj2 (proj2 (proj2 (proj2
    (modal_index_stays_in_range _
       [CardClick 1; NextClick; NextClick; KeyDown ArrowRight; PrevClick]
       Hinit)))) Hopen).
Defined.

(** ** The translation client *)

(** How a call of [translateTextForce] ends on a given network, and what it
    sends. *)
Lemma translateTextForce_run (net : Network) (l text lang : jsstring) :
  run net l (translateTextForce text lang)
  = if falsy text then (Fulfilled [], [])
    else
      (Fulfilled
         match onFetch net (translateRequest text lang) with
         | Rejected _ => text
         | Fulfilled res =>
             match onJson net res with
             | Rejected _ => text
             | Fulfilled DataNull => text
             | Fulfilled (DataValue translated) => orElse translated text
             end
         end,
       [translateRequest text lang]).
Proof.
  unfold translateTextForce. destruct (falsy text); [reflexivity|].
  simpl. destruct (onFetch net _) as [res|e]; simpl; [|reflexivity].
  destruct (onJson net res) as [[|translated]|e]; reflexivity.
Qed.

Lemma translateTextForce_never_throws (net : Network) (l text lang : jsstring) :
  exists v sent, run net l (translateTextForce text lang) = (Fulfilled v, sent).
Proof.
  rewrite translateTextForce_run. destruct (falsy text); eauto.
Qed.

(** C4: on an empty text [translateTextForce] returns the empty string at
    once, without a request; and when the call fails (the transport fails,
    parsing the body fails, or the parsed body has no translated text to
    read) its promise is fulfilled with the input text, not rejected.  No
    call is ever rejected. *)
Theorem translateTextForce_degrades (net : Network) (l text lang : jsstring)
    (Hfail : callFails net (translateRequest text lang)) :
  translateTextForce [] lang = Return []
  /\ run net l (translateTextForce [] lang) = (Fulfilled [], [])
  /\ fst (run net l (translateTextForce text lang)) = Fulfilled text
  /\ (forall net' text',
        exists v sent,
          run net' l (translateTextForce text' lang) = (Fulfilled v, sent)).
Proof.
  split; [reflexivity|]. split; [reflexivity|]. split.
  - rewrite translateTextForce_run.
    destruct (falsy text) eqn:E.
    + apply falsy_nil in E. subst. reflexivity.
    + simpl. f_equal.
      destruct Hfail as [[e H]|[(res & e & H1 & H2)|[(res & H1 & H2)|(res & H1 & H2)]]].
      * rewrite H. reflexivity.
      * rewrite H1, H2. reflexivity.
      * rewrite H1, H2. reflexivity.
      * rewrite H1, H2. reflexivity.
  - intros net' text'. apply translateTextForce_never_throws.
Qed.

(** C4 on a network where every request is rejected. *)
Lemma translateTextForce_offline_witness :
  callFails offlineNetwork (translateRequest (lit "Hello") (lit "ja"))
  /\ fst (run offlineNetwork (lit "ja") (translateTextForce (lit "Hello") (lit "ja")))
     = Fulfilled (lit "Hello").
Proof.
  assert (callFails offlineNetwork (translateRequest (lit "Hello") (lit "ja")))
    as Hfail by (left; exists NetworkError; reflexivity).
  split; [exact Hfail|].
  exact (proj1 (proj2 (proj2
    (translateTextForce_degrades offlineNetwork (lit "ja") (lit "Hello")
       (lit "ja") Hfail)))).
Defined.

(** A call that succeeds returns the translated text. *)
Example translateTextForce_bracket :
  run bracketNetwork (lit "ja") (translateTextForce (lit "Hi") (lit "ja"))
  = (Fulfilled (lit "[Hi]"), [translateRequest (lit "Hi") (lit "ja")]).
Proof. reflexivity. Qed.

(** ** Loading *)

Lemma renderList_loadingSection (toLowerCase : jsstring -> jsstring)
    (cat search : jsstring) (s : State) :
  loadingSection (page (renderList toLowerCase cat search s))
  = loadingSection (page s).
Proof.
  unfold renderList. cbv zeta. destruct (length _ =? 0)%nat; reflexivity.
Qed.

Lemma assign_templates_list (a : list Template) (s : State) :
  templatesList (assign_templates a s) = a
  /\ (templates (assign_templates a s) < length (heap (assign_templates a s)))%nat
  /\ templates (assign_templates a s) = length (heap s)
  /\ heap (assign_templates a s) = heap s ++ [a].
Proof.
  unfold templatesList, assign_templates. simpl.
  split; [apply deref_alloc_new|].
  split; [rewrite length_app; simpl; lia|].
  split; reflexivity.
Qed.

(** C8: when the batch is rejected, [templates] becomes a new array holding
    the untranslated dataset, and it still does once the list is rendered;
    the loading indicator, shown when the load begins, is hidden however the
    batch settles. *)
Theorem fetchTemplates_falls_back (toLowerCase : jsstring -> jsstring)
    (customTemplates : list Template) (s : State) (e : Error)
    (r : Settled (list Template)) :
  templatesList (fetchTemplates_settle customTemplates (Rejected e) s)
    = customTemplates
  /\ templatesList (fetchTemplates_resume toLowerCase customTemplates (Rejected e) s)
     = customTemplates
  /\ templates (fetchTemplates_settle customTemplates (Rejected e) s)
     = length (heap s)
  /\ loadingSection (page (fetchTemplates_begin s)) = DisplayBlock
  /\ loadingSection (page (fetchTemplates_settle customTemplates r s)) = DisplayNone
  /\ loadingSection (page (fetchTemplates_resume toLowerCase customTemplates r s))
     = DisplayNone.
Proof.
  destruct (assign_templates_list customTemplates s) as (Hl & Hlt & Hn & Hh).
  split; [exact Hl|]. split.
  - unfold fetchTemplates_resume.
    rewrite renderList_templatesList; [exact Hl | exact Hlt].
  - split; [exact Hn|]. split; [reflexivity|].
    assert (loadingSection (page (fetchTemplates_settle customTemplates r s))
            = DisplayNone) as Hs by (destruct r; reflexivity).
    split; [exact Hs|].
    unfold fetchTemplates_resume. rewrite renderList_loadingSection. exact Hs.
Qed.

(** ** Asynchronous computations *)

Lemma advance_not_read {A : Type} (l : jsstring) (p : Async A) :
  forall k, advance l p <> ReadTargetLang k.
Proof.
  induction p as [a|e|req k IH|res k IH|k IH]; intros k'; simpl;
    try discriminate.
  apply IH.
Qed.

Lemma advance_bind {A B : Type} (l : jsstring) (p : Async A) (f : A -> Async B) :
  advance l (bind p f)
  = match advance l p with
    | Return a => advance l (f a)
    | q => bind q f
    end.
Proof.
  induction p as [a|e|req k IH|res k IH|k IH]; simpl; try reflexivity.
  apply IH.
Qed.

Lemma advance_translateTextForce (l text lang : jsstring) :
  advance l (translateTextForce text lang) = translateTextForce text lang.
Proof. unfold translateTextForce. destruct (falsy text); reflexivity. Qed.

Lemma run_bind {A B : Type} (net : Network) (l : jsstring) (p : Async A)
    (f : A -> Async B) :
  run net l (bind p f)
  = match run net l p with
    | (Fulfilled a, sent1) =>
        let '(r, sent2) := run net l (f a) in (r, sent1 ++ sent2)
    | (Rejected e, sent1) => (Rejected e, sent1)
    end.
Proof.
  induction p as [a|e|req k IH|res k IH|k IH]; simpl.
  - destruct (run net l (f a)). reflexivity.
  - reflexivity.
  - rewrite IH. destruct (run net l (k (onFetch net req))) as [[a|e] sent1].
    + destruct (run net l (f a)). reflexivity.
    + reflexivity.
  - apply IH.
  - apply IH.
Qed.

Lemma feed_Return {A : Type} (script : list (jsstring * Answer)) (a b : A) :
  feed script (Return a) = Some (Return b) -> script = [] /\ a = b.
Proof.
  destruct script as [|[l x] rest]; simpl.
  - intros H. injection H as ->. split; reflexivity.
  - destruct x; discriminate.
Qed.

(** A sequence [bind p f] returns only by [p] returning first: the script
    splits into the answers [p] consumes and those the rest consumes, and the
    rest starts under the language current when [p] returned. *)
Lemma feed_bind {A B : Type} (f : A -> Async B) (b : B)
    (script : list (jsstring * Answer)) :
  forall (l : jsstring) (p : Async A),
    feed script (advance l (bind p f)) = Some (Return b) ->
    exists s1 s2 a l',
      script = s1 ++ s2
      /\ feed s1 (advance l p) = Some (Return a)
      /\ feed s2 (advance l' (f a)) = Some (Return b).
Proof.
  induction script as [|[l0 x] rest IH]; intros l p; rewrite advance_bind.
  - destruct (advance l p) as [a|e|req k|res k|k] eqn:E; simpl; try discriminate.
    intros H. exists [], [], a, l. repeat split. exact H.
  - destruct (advance l p) as [a|e|req k|res k|k] eqn:E.
    + intros H. exists [], ((l0, x) :: rest), a, l. repeat split. exact H.
    + simpl. destruct x; discriminate.
    + simpl. destruct x as [r|d]; [|discriminate].
      intros H. apply IH in H as (s1 & s2 & a & l' & Hs & H1 & H2).
      exists ((l0, FetchSettled r) :: s1), s2, a, l'.
      split; [simpl; congruence|]. split; assumption.
    + simpl. destruct x as [r|d]; [discriminate|].
      intros H. apply IH in H as (s1 & s2 & a & l' & Hs & H1 & H2).
      exists ((l0, JsonSettled d) :: s1), s2, a, l'.
      split; [simpl; congruence|]. split; assumption.
    + exfalso. exact (advance_not_read l p k E).
Qed.

(** A template's record is assembled only after its subject call and then
    its body call have both returned. *)
Lemma translateTemplate_sequential (lang : jsstring) (t : Template)
    (script : list (jsstring * Answer)) (r : Template) :
  feed script (advance lang (translateTemplate t)) = Some (Return r) ->
  exists s1 s2 subject' body' lang2,
    script = s1 ++ s2
    /\ feed s1 (translateTextForce (subject t) lang) = Some (Return subject')
    /\ feed s2 (translateTextForce (body t) lang2) = Some (Return body')
    /\ r = {| subject := subject'; body := body'; category := category t |}.
Proof.
  intros H. simpl in H.
  apply feed_bind in H as (s1 & s2 & subject' & lang2 & Hs & H1 & H2).
  rewrite advance_translateTextForce in H1.
  simpl in H2.
  apply feed_bind in H2 as (s2a & s2b & body' & lang3 & Hs2 & H2a & H2b).
  rewrite advance_translateTextForce in H2a.
  simpl in H2b. apply feed_Return in H2b as [-> <-].
  exists s1, s2a, subject', body', lang2.
  rewrite app_nil_r in Hs2. subst s2.
  repeat split; assumption.
Qed.

(** At launch a template has its first call in flight and no other. *)
Lemma pendingFetch_translateTemplate (lang : jsstring) (t : Template) :
  pendingFetch (advance lang (translateTemplate t)) = firstRequest lang t.
Proof.
  unfold firstRequest. destruct t as [[|c s] [|d b] cat]; reflexivity.
Qed.

(** The requests sent at launch: those of the subjects, then those of the
    bodies of the templates without a subject. *)
Lemma launch_issued (lang : jsstring) (customTemplates : list Template) :
  issued (launch lang customTemplates)
  = flat_map (subjectRequest lang) customTemplates
    ++ flat_map (bodyRequestAtLaunch lang) customTemplates.
Proof.
  unfold launch. cbv zeta. cbn [issued]. f_equal.
  - apply flat_map_ext. intros [[|c s] b cat]; reflexivity.
  - apply flat_map_ext. intros [[|c s] [|d b] cat]; reflexivity.
Qed.

Lemma firstRequest_issued (lang : jsstring) (customTemplates : list Template)
    (t : Template) (req : Request) :
  In t customTemplates -> In req (firstRequest lang t) ->
  In req (issued (launch lang customTemplates)).
Proof.
  intros Ht Hreq. rewrite launch_issued. apply in_or_app.
  unfold firstRequest in Hreq. destruct (falsy (subject t)) eqn:Es.
  - right. apply in_flat_map. exists t. split; [exact Ht|].
    unfold bodyRequestAtLaunch. rewrite Es. exact Hreq.
  - left. apply in_flat_map. exists t. split; [exact Ht|].
    unfold subjectRequest. rewrite Es. exact Hreq.
Qed.

Lemma deliver_length (i : nat) (l : jsstring) (a : Answer) (b b' : Batch) :
  deliver i l a b = Some b' -> length (tasks b') = length (tasks b).
Proof.
  unfold deliver. destruct (tasks b !! i) as [p|]; [|discriminate].
  destruct (resume l a p) as [p'|]; [|discriminate].
  intros H. injection H as <-. simpl. apply length_insert.
Qed.

Lemma deliverAll_length (ds : list (nat * jsstring * Answer)) (b b' : Batch) :
  deliverAll ds b = Some b' -> length (tasks b') = length (tasks b).
Proof.
  revert b. induction ds as [|[[i l] a] rest IH]; intros b; simpl.
  - intros H. injection H as <-. reflexivity.
  - destruct (deliver i l a b) as [b1|] eqn:E; [|discriminate].
    intros H. rewrite (IH _ H). eapply deliver_length. exact E.
Qed.

(** After any deliveries, the computation of a template is the one it
    started as, fed the answers that were for it, in their order: the
    answers for the other templates, wherever they came in between, have no
    part in it. *)
Lemma deliverAll_projects (ds : list (nat * jsstring * Answer)) :
  forall (b b' : Batch) (i : nat) (p : Async Template),
    deliverAll ds b = Some b' -> tasks b !! i = Some p ->
    exists p', tasks b' !! i = Some p' /\ feed (answersFor i ds) p = Some p'.
Proof.
  induction ds as [|[[j l] a] rest IH]; intros b b' i p; simpl.
  - intros H Hp. injection H as <-. exists p. split; [exact Hp | reflexivity].
  - destruct (deliver j l a b) as [b1|] eqn:E; [|discriminate].
    intros H Hp. unfold deliver in E.
    destruct (tasks b !! j) as [q|] eqn:Eq; [|discriminate].
    destruct (resume l a q) as [q'|] eqn:Er; [|discriminate].
    injection E as <-.
    destruct (Nat.eqb_spec j i) as [->|Hne].
    + assert (q = p) by congruence. subst q.
      simpl. rewrite Er. apply (IH _ b' i q' H). simpl.
      apply list_lookup_insert_eq. eapply lookup_lt_Some. exact Hp.
    + apply (IH _ b' i p H). simpl.
      rewrite list_lookup_insert_ne by exact Hne. exact Hp.
Qed.

Lemma launch_task (lang : jsstring) (customTemplates : list Template)
    (i : nat) (t : Template) :
  customTemplates !! i = Some t ->
  tasks (launch lang customTemplates) !! i
  = Some (advance lang (translateTemplate t)).
Proof.
  intros Ht. unfold launch. cbv zeta. cbn [tasks].
  change (List.map ?f ?l) with (f <$> l).
  rewrite list_lookup_fmap, Ht. reflexivity.
Qed.

Lemma deliverAll_same_answers (lang : jsstring) (customTemplates : list Template)
    (ds ds' : list (nat * jsstring * Answer)) (b b' : Batch) :
  deliverAll ds (launch lang customTemplates) = Some b ->
  deliverAll ds' (launch lang customTemplates) = Some b' ->
  (forall i, answersFor i ds = answersFor i ds') ->
  tasks b = tasks b'.
Proof.
  intros H H' Hsame. apply list_eq. intros i.
  destruct (tasks (launch lang customTemplates) !! i) as [p|] eqn:Ep.
  - destruct (deliverAll_projects ds _ b i p H Ep) as (q & Hq & Hf).
    destruct (deliverAll_projects ds' _ b' i p H' Ep) as (q' & Hq' & Hf').
    rewrite Hsame in Hf. congruence.
  - apply lookup_ge_None in Ep.
    rewrite <- (deliverAll_length _ _ _ H) in Ep.
    pose proof (deliverAll_length _ _ _ H) as Hl.
    pose proof (deliverAll_length _ _ _ H') as Hl'.
    rewrite (proj2 (lookup_ge_None (tasks b) i)) by exact Ep.
    rewrite (proj2 (lookup_ge_None (tasks b') i)) by lia.
    reflexivity.
Qed.

(** An answer for one template leaves the computations of the others as
    they are. *)
Lemma deliver_other (b b' : Batch) (i j : nat) (l : jsstring) (a : Answer) :
  deliver i l a b = Some b' -> i <> j -> tasks b' !! j = tasks b !! j.
Proof.
  unfold deliver. destruct (tasks b !! i) as [p|]; [|discriminate].
  destruct (resume l a p) as [p'|]; [|discriminate].
  intros H Hne. injection H as <-. simpl.
  apply list_lookup_insert_ne. exact Hne.
Qed.

(** Answers for two templates can arrive in either order, with the same
    computations in the end. *)
Lemma deliver_commute (b b1 b2 : Batch) (i j : nat) (la lb : jsstring)
    (a c : Answer) :
  i <> j ->
  deliver i la a b = Some b1 -> deliver j lb c b = Some b2 ->
  exists b12 b21,
    deliver j lb c b1 = Some b12
    /\ deliver i la a b2 = Some b21
    /\ tasks b12 = tasks b21.
Proof.
  intros Hne H1 H2.
  pose proof (deliver_other b b1 i j la a H1 Hne) as Hj.
  pose proof (deliver_other b b2 j i lb c H2 (not_eq_sym Hne)) as Hi.
  unfold deliver in *.
  destruct (tasks b !! i) as [p|] eqn:Ei; [|discriminate].
  destruct (resume la a p) as [p'|] eqn:Ep; [|discriminate].
  destruct (tasks b !! j) as [q|] eqn:Ej; [|discriminate].
  destruct (resume lb c q) as [q'|] eqn:Eq; [|discriminate].
  injection H1 as <-. injection H2 as <-. simpl in *.
  rewrite Hj, Hi, Ep, Eq.
  eexists. eexists. split; [reflexivity|]. split; [reflexivity|].
  simpl. symmetry. apply list_insert_insert_ne. exact Hne.
Qed.

(** Whatever the network does, a template's computation returns a record
    with the template's category. *)
Lemma translateTemplate_returns (net : Network) (lang : jsstring) (t : Template) :
  exists r sent,
    run net lang (translateTemplate t) = (Fulfilled r, sent)
    /\ category r = category t.
Proof.
  simpl. rewrite run_bind.
  destruct (translateTextForce_never_throws net lang (subject t) lang)
    as (v1 & sent1 & ->).
  simpl. rewrite run_bind.
  destruct (translateTextForce_never_throws net lang (body t) lang)
    as (v2 & sent2 & ->).
  simpl. eexists. eexists. split; reflexivity.
Qed.

Lemma promiseAll_fulfilled (ts : list (Async Template)) (rs : list Template) :
  promiseAll ts = Some (Fulfilled rs) <-> ts = List.map Return rs.
Proof.
  revert rs. induction ts as [|p ts IH]; intros rs.
  - simpl. split.
    + intros H. injection H as <-. reflexivity.
    + destruct rs; [reflexivity | discriminate].
  - destruct p as [r|e|req k|res k|k]; simpl.
    + destruct (promiseAll ts) as [[rs'|e]|] eqn:E.
      * split.
        -- intros H. injection H as <-. simpl. f_equal. apply IH. reflexivity.
        -- destruct rs as [|r0 rs0]; [discriminate|]. simpl.
           intros H. injection H as -> H. apply IH in H. congruence.
      * split; [discriminate|].
        destruct rs as [|r0 rs0]; [discriminate|]. simpl.
        intros H. injection H as -> H. apply IH in H. congruence.
      * split; [discriminate|].
        destruct rs as [|r0 rs0]; [discriminate|]. simpl.
        intros H. injection H as -> H. apply IH in H. congruence.
    + split; [discriminate | destruct rs; discriminate].
    + destruct (promiseAll ts) as [[rs'|e]|]; split; try discriminate;
        destruct rs; discriminate.
    + destruct (promiseAll ts) as [[rs'|e]|]; split; try discriminate;
        destruct rs; discriminate.
    + destruct (promiseAll ts) as [[rs'|e]|]; split; try discriminate;
        destruct rs; discriminate.
Qed.

(** ** The translation batch *)

(** C7, as stated, fails: for a template with subject [a] and body [b] only
    the subject's call has been sent when the batch is launched; the body's
    call is not in flight with it. *)
Lemma body_call_not_issued_at_launch :
  issued (launch (lit "ja") [salesTemplate])
    = [translateRequest (lit "a") (lit "ja")]
  /\ ~ In (translateRequest (lit "b") (lit "ja"))
         (issued (launch (lit "ja") [salesTemplate]))
  /\ ~ allCallsIssuedAtLaunch (lit "ja") [salesTemplate].
Proof.
  assert (issued (launch (lit "ja") [salesTemplate])
          = [translateRequest (lit "a") (lit "ja")]) as Hi by reflexivity.
  assert (~ In (translateRequest (lit "b") (lit "ja"))
            (issued (launch (lit "ja") [salesTemplate]))) as Hn.
  { rewrite Hi. intros [H|[]]. discriminate H. }
  split; [exact Hi|]. split; [exact Hn|].
  intros Hall. apply Hn.
  apply (Hall salesTemplate); [left; reflexivity|].
  right. left. reflexivity.
Qed.

(** C7, amended: when the batch is launched, and before any answer
    arrives, every template's computation is started and its first call is
    sent: the calls for the subjects in the order of the dataset and then,
    for the templates without a subject, the calls for the bodies.  There is
    no ordering between templates: after any deliveries the computation of a
    template is the one it started as, fed the answers that were for it, so
    two orders of arrival that give every template the same answers end in
    the same computations.  Within one template the body's call is sent only
    after the subject's call has returned, and the translated record is
    assembled only after both have returned, from their two results and the
    template's category.  Every computation does return, and [Promise.all]
    is fulfilled exactly when all have. *)
Theorem batch_concurrent_across_templates (lang : jsstring)
    (customTemplates : list Template) :
  issued (launch lang customTemplates)
    = flat_map (subjectRequest lang) customTemplates
      ++ flat_map (bodyRequestAtLaunch lang) customTemplates
  /\ (forall t req,
        In t customTemplates -> In req (firstRequest lang t) ->
        In req (issued (launch lang customTemplates)))
  /\ (forall ds b i t,
        deliverAll ds (launch lang customTemplates) = Some b ->
        customTemplates !! i = Some t ->
        exists p,
          tasks b !! i = Some p
          /\ feed (answersFor i ds) (advance lang (translateTemplate t)) = Some p)
  /\ (forall ds ds' b b',
        deliverAll ds (launch lang customTemplates) = Some b ->
        deliverAll ds' (launch lang customTemplates) = Some b' ->
        (forall i, answersFor i ds = answersFor i ds') ->
        tasks b = tasks b')
  /\ (forall t,
        falsy (subject t) = false ->
        pendingFetch (advance lang (translateTemplate t))
        = [translateRequest (subject t) lang])
  /\ (forall t script r,
        feed script (advance lang (translateTemplate t)) = Some (Return r) ->
        exists s1 s2 subject' body' lang2,
          script = s1 ++ s2
          /\ feed s1 (translateTextForce (subject t) lang) = Some (Return subject')
          /\ feed s2 (translateTextForce (body t) lang2) = Some (Return body')
          /\ r = {| subject := subject'; body := body'; category := category t |})
  /\ (forall net t,
        exists r sent,
          run net lang (translateTemplate t) = (Fulfilled r, sent)
          /\ category r = category t)
  /\ (forall ts rs,
        promiseAll ts = Some (Fulfilled rs) <-> ts = List.map Return rs).
Proof.
  split; [apply launch_issued|].
  split; [intros t req; apply firstRequest_issued|].
  split.
  { intros ds b i t Hrun Ht.
    apply (deliverAll_projects ds _ b i _ Hrun).
    apply launch_task. exact Ht. }
  split; [intros ds ds' b b'; apply deliverAll_same_answers|].
  split.
  - intros t Hs. rewrite pendingFetch_translateTemplate.
    unfold firstRequest. rewrite Hs. reflexivity.
  - split; [intros t script r; apply translateTemplate_sequential|].
    split; [intros net t; apply translateTemplate_returns|].
    apply promiseAll_fulfilled.
Qed.

(** A launch with a template that has no subject: its body is requested
    after the subject of the template that follows it. *)
Example launch_order_without_subject :
  List.map reqQ
    (issued (launch (lit "ja")
       [ {| subject := []; body := lit "x"; category := None |};
         {| subject := lit "s"; body := lit "y"; category := None |} ]))
  = [lit "s"; lit "x"].
Proof. reflexivity. Qed.

(** A run of the batch for two templates: the answers for the second
    template arrive first, and the batch is fulfilled in the order of the
    dataset. *)
Example batch_out_of_order_run :
  let ok text := FetchSettled (Fulfilled (mkResponse 200%N text)) in
  let parsed text := JsonSettled (Fulfilled (DataValue (Some text))) in
  let ja := lit "ja" in
  let b0 := launch ja [salesTemplate; uncategorised] in
  exists b1 b2 b3 b4 b5 b6 b7 b8,
    deliver 1 ja (ok (lit "x")) b0 = Some b1
    /\ deliver 1 ja (parsed (lit "H")) b1 = Some b2
    /\ deliver 1 ja (ok (lit "x")) b2 = Some b3
    /\ deliver 1 ja (parsed (lit "W")) b3 = Some b4
    /\ promiseAll (tasks b4) = None
    /\ deliver 0 ja (ok (lit "x")) b4 = Some b5
    /\ deliver 0 ja (parsed (lit "A")) b5 = Some b6
    /\ deliver 0 ja (ok (lit "x")) b6 = Some b7
    /\ deliver 0 ja (parsed (lit "B")) b7 = Some b8
    /\ promiseAll (tasks b8)
       = Some (Fulfilled
           [ {| subject := lit "A"; body := lit "B"; category := Some (lit "Sales") |};
             {| subject := lit "H"; body := lit "W"; category := None |} ])
    /\ List.map reqQ (issued b8) = [lit "a"; lit "Hello"; lit "World"; lit "b"].
Proof.
  cbv zeta. do 8 eexists.
  repeat (split; [vm_compute; reflexivity|]).
  vm_compute. reflexivity.
Qed.

(** ** The store only grows *)

(** The array variables of the initial state point into the store, and every
    operation of the script keeps them doing so: every state the script
    reaches is well formed. *)
Lemma initialState_wellFormed (p : Page) : wellFormed (initialState p).
Proof. unfold wellFormed. simpl. lia. Qed.

Lemma renderList_wellFormed (toLowerCase : jsstring -> jsstring)
    (cat search : jsstring) (s : State) :
  wellFormed s -> wellFormed (renderList toLowerCase cat search s).
Proof.
  intros [Ht Hd].
  destruct (renderList_state toLowerCase cat search s) as (Hh & Ht' & Hd' & _).
  unfold wellFormed. rewrite Hh, Ht', Hd', length_app. simpl. lia.
Qed.

Lemma fetchTemplates_resume_wellFormed (toLowerCase : jsstring -> jsstring)
    (customTemplates : list Template) (r : Settled (list Template)) (s : State) :
  wellFormed s ->
  wellFormed (fetchTemplates_resume toLowerCase customTemplates r s).
Proof.
  intros [Ht Hd]. unfold fetchTemplates_resume.
  apply renderList_wellFormed.
  unfold wellFormed. destruct r; simpl; rewrite length_app; simpl; lia.
Qed.

Lemma showModal_templates (s : State) : templates (showModal s) = templates s.
Proof.
  unfold showModal. cbv zeta.
  destruct (_ || _); [reflexivity|].
  destruct (arrayGet _ _); [|reflexivity].
  destruct (modalEl s); reflexivity.
Qed.

Lemma modalStep_store (ev : ModalEvent) (s : State) :
  heap (modalStep ev s) = heap s
  /\ templates (modalStep ev s) = templates s
  /\ displayed (modalStep ev s) = displayed s.
Proof.
  assert (forall x, heap (showModal x) = heap x
                    /\ templates (showModal x) = templates x
                    /\ displayed (showModal x) = displayed x) as Hshow.
  { intros x. destruct (showModal_frame x) as (Hh & Hd & _).
    pose proof (showModal_templates x). auto. }
  assert (forall i, heap (openModalByIndex i s) = heap s
                    /\ templates (openModalByIndex i s) = templates s
                    /\ displayed (openModalByIndex i s) = displayed s) as Hopen.
  { intros i. unfold openModalByIndex. destruct (_ || _); [auto|]. cbv zeta.
    destruct (Hshow (set_modalIndex i (ensureModal s))) as (H1 & H2 & H3).
    simpl. rewrite H1, H2, H3. unfold ensureModal.
    destruct (modalEl s); auto. }
  assert (heap (showPrevModal s) = heap s
          /\ templates (showPrevModal s) = templates s
          /\ displayed (showPrevModal s) = displayed s) as Hprev.
  { unfold showPrevModal. destruct (_ >? _); [|auto].
    destruct (Hshow (set_modalIndex (modalIndex s - 1) s)) as (H1 & H2 & H3).
    rewrite H1, H2, H3. auto. }
  assert (heap (showNextModal s) = heap s
          /\ templates (showNextModal s) = templates s
          /\ displayed (showNextModal s) = displayed s) as Hnext.
  { unfold showNextModal. destruct (_ <? _); [|auto].
    destruct (Hshow (set_modalIndex (modalIndex s + 1) s)) as (H1 & H2 & H3).
    rewrite H1, H2, H3. auto. }
  assert (heap (closeModal s) = heap s
          /\ templates (closeModal s) = templates s
          /\ displayed (closeModal s) = displayed s) as Hclose.
  { unfold closeModal. destruct (modalEl s); auto. }
  destruct ev as [i| | | | |k]; simpl.
  - apply Hopen.
  - destruct (modalEl s); auto.
  - destruct (modalEl s); auto.
  - destruct (modalEl s); auto.
  - destruct (modalEl s); auto.
  - unfold onKeyDown. destruct (modalEl s) as [m|]; [|auto].
    destruct (modalDisplay m); auto. destruct k; auto.
Qed.

Lemma modalStep_wellFormed (ev : ModalEvent) (s : State) :
  wellFormed s -> wellFormed (modalStep ev s).
Proof.
  intros Hwf. destruct (modalStep_store ev s) as (Hh & Ht & Hd).
  unfold wellFormed. rewrite Hh, Ht, Hd. exact Hwf.
Qed.

(** ** The scenarios of the specification *)

(** One template with a body of 200 characters, default language: one item
    is displayed, the count reads "1 / 1", and the modal shows the whole
    body. *)
Example scenario_long_body :
  displayedList (loaded [longTemplate]) = [longTemplate]
  /\ countEl (page (loaded [longTemplate])) = lit "1 / 1"
  /\ match modalEl (runModal [CardClick 0] (loaded [longTemplate])) with
     | Some m => option_map modalFullBody (modalContent m)
     | None => None
     end = Some (body longTemplate)
  /\ length (body longTemplate) = 200%nat.
Proof. repeat split; vm_compute; reflexivity. Qed.

(** The call for one template's subject is rejected: the record keeps the
    subject as it was, the body is translated, and both calls were sent. *)
Example scenario_subject_call_rejected :
  run flakyNetwork (lit "ja") (translateTemplate salesTemplate)
  = (Fulfilled {| subject := lit "a"; body := lit "[b]";
                  category := Some (lit "Sales") |},
     [translateRequest (lit "a") (lit "ja"); translateRequest (lit "b") (lit "ja")]).
Proof. vm_compute. reflexivity. Qed.

(** * Further properties of the script *)

(** ** The sanitizer: what its output never holds *)

Lemma escapeUnit_markupFree (x : unit16) : Forall markupFree (escapeUnit x).
Proof.
  unfold escapeUnit, markupFree.
  destruct (N.eqb_spec x AMP) as [->|Hamp];
    [repeat constructor; discriminate|].
  destruct (N.eqb_spec x LT) as [->|Hlt];
    [repeat constructor; discriminate|].
  destruct (N.eqb_spec x GT) as [->|Hgt];
    [repeat constructor; discriminate|].
  destruct (N.eqb_spec x QUOT) as [->|Hquot];
    [repeat constructor; discriminate|].
  destruct (N.eqb_spec x APOS) as [->|Hapos];
    [repeat constructor; discriminate|].
  repeat constructor; assumption.
Qed.

Lemma escapeUnit_plain (x : unit16) :
  x <> AMP -> markupFree x -> escapeUnit x = [x].
Proof.
  intros H1 (H2 & H3 & H4 & H5). unfold escapeUnit.
  apply N.eqb_neq in H1, H2, H3, H4, H5.
  rewrite H1, H2, H3, H4, H5. reflexivity.
Qed.

(** X1: whatever the input, the output of [escapeHtml] holds none of [<],
    [>], the double quote and the apostrophe; and a string without these and
    without [&] comes out as it went in. *)
Theorem escapeHtml_output_markup_free (str : option jsstring) :
  Forall markupFree (escapeHtml str)
  /\ (forall s, str = Some s ->
        Forall (fun x => x <> AMP /\ markupFree x) s -> escapeHtml str = s).
Proof.
  split.
  - destruct str as [s|]; [|constructor].
    rewrite escapeHtml_flat_map. apply Forall_flat_map.
    apply Forall_forall. intros x _. apply escapeUnit_markupFree.
  - intros s -> Hs. rewrite escapeHtml_flat_map.
    induction Hs as [|x l [Hx Hm] Hl IH]; [reflexivity|].
    simpl. rewrite IH, escapeUnit_plain by assumption. reflexivity.
Qed.

(** The output for one code unit tells which code unit it was, also when
    more output follows. *)
Lemma escapeUnit_app_inj (x y : unit16) (r1 r2 : jsstring) :
  escapeUnit x ++ r1 = escapeUnit y ++ r2 -> x = y /\ r1 = r2.
Proof.
  unfold escapeUnit.
  destruct (N.eqb_spec x AMP) as [->|Hx1];
    [|destruct (N.eqb_spec x LT) as [->|Hx2];
      [|destruct (N.eqb_spec x GT) as [->|Hx3];
        [|destruct (N.eqb_spec x QUOT) as [->|Hx4];
          [|destruct (N.eqb_spec x APOS) as [->|Hx5]]]]];
  (destruct (N.eqb_spec y AMP) as [->|Hy1];
    [|destruct (N.eqb_spec y LT) as [->|Hy2];
      [|destruct (N.eqb_spec y GT) as [->|Hy3];
        [|destruct (N.eqb_spec y QUOT) as [->|Hy4];
          [|destruct (N.eqb_spec y APOS) as [->|Hy5]]]]]);
  unfold AMP, LT, GT, QUOT, APOS in *; intros H; cbv in H;
    injection H; intros; subst; try discriminate; try congruence; auto.
Qed.

Lemma escapeUnit_nonempty (x : unit16) (r : jsstring) : escapeUnit x ++ r <> [].
Proof.
  unfold escapeUnit.
  repeat (match goal with |- context [if ?c then _ else _] => destruct c end);
    discriminate.
Qed.

(** X2: [escapeHtml] loses nothing: two strings with the same output are the
    same string. *)
Theorem escapeHtml_injective (a b : jsstring) :
  escapeHtml (Some a) = escapeHtml (Some b) <-> a = b.
Proof.
  split; [|intros ->; reflexivity].
  rewrite !escapeHtml_flat_map. revert b.
  induction a as [|x a IH]; intros [|y b]; simpl; intros H.
  - reflexivity.
  - symmetry in H. destruct (escapeUnit_nonempty _ _ H).
  - destruct (escapeUnit_nonempty _ _ H).
  - apply escapeUnit_app_inj in H as [-> H]. f_equal. apply IH. exact H.
Qed.

(** ** The category dropdown *)

Lemma setAdd_prefix (x : jsstring) (set : list jsstring) :
  set `prefix_of` setAdd x set.
Proof.
  unfold setAdd. destruct (existsb (str_eqb x) set).
  - reflexivity.
  - apply prefix_app_r. reflexivity.
Qed.

Lemma setAdd_NoDup (x : jsstring) (set : list jsstring) :
  List.NoDup set -> List.NoDup (setAdd x set).
Proof.
  intros Hnd. unfold setAdd. destruct (existsb (str_eqb x) set) eqn:E.
  - exact Hnd.
  - apply NoDup_ListNoDup. apply NoDup_app. split; [|split].
    + apply NoDup_ListNoDup. exact Hnd.
    + intros y Hy Hy'. apply list_elem_of_In in Hy.
      apply list_elem_of_singleton in Hy'. subst y.
      apply existsb_str_eqb in Hy. congruence.
    + apply NoDup_singleton.
Qed.

Lemma fold_setAdd_invariant (ts : list Template) (acc : list jsstring) :
  List.NoDup acc ->
  let out := fold_left
    (fun set t => setAdd (orElse (category t) (lit "General")) set) ts acc in
  List.NoDup out /\ acc `prefix_of` out.
Proof.
  revert acc. induction ts as [|t ts IH]; intros acc Hnd; simpl.
  - split; [exact Hnd | reflexivity].
  - destruct (IH _ (setAdd_NoDup (orElse (category t) (lit "General")) acc Hnd))
      as [H1 H2].
    split; [exact H1|].
    etransitivity; [apply setAdd_prefix | exact H2].
Qed.

Lemma categoriesOf_app (ts ts' : list Template) :
  categoriesOf ts `prefix_of` categoriesOf (ts ++ ts').
Proof.
  unfold categoriesOf. rewrite fold_left_app.
  apply fold_setAdd_invariant.
  apply (fold_setAdd_invariant ts [lit "All"]).
  repeat constructor. intros [].
Qed.

(** X3: the dropdown that [populateCategories] builds starts with "All",
    holds no option twice, holds exactly "All" and, for every template, its
    category or "General" when the category is absent or empty; and with more
    templates at the end of the dataset the options already there keep their
    places. *)
Theorem populateCategories_options (s : State) :
  let options := categorySel (page (populateCategories s)) in
  (exists rest, options = lit "All" :: rest)
  /\ List.NoDup options
  /\ (forall c, In c options <->
        c = lit "All"
        \/ exists t, In t (templatesList s)
                     /\ orElse (category t) (lit "General") = c)
  /\ (forall more, options `prefix_of` categoriesOf (templatesList s ++ more)).
Proof.
  cbv zeta. simpl.
  assert (List.NoDup [lit "All"]) as Hnd by (repeat constructor; intros []).
  destruct (fold_setAdd_invariant (templatesList s) [lit "All"] Hnd)
    as [H1 [rest H2]].
  split; [exists rest; exact H2|].
  split; [exact H1|].
  split; [intros c; apply categoriesOf_In|].
  intros more. apply categoriesOf_app.
Qed.

(** ** Filtering *)

Lemma filter_sublist_impl {A : Type} (f g : A -> bool) (l : list A) :
  (forall x, f x = true -> g x = true) ->
  sublist (List.filter f l) (List.filter g l).
Proof.
  intros Hfg. induction l as [|x l IH]; simpl; [constructor|].
  destruct (f x) eqn:Ef.
  - rewrite (Hfg x Ef). apply sublist_skip. exact IH.
  - destruct (g x); [apply sublist_cons|]; exact IH.
Qed.

Lemma substring_trans (a b c : jsstring) :
  substring a b -> substring b c -> substring a c.
Proof.
  intros (p1 & q1 & ->) (p2 & q2 & ->).
  exists (p2 ++ p1), (q1 ++ q2). rewrite <- !app_assoc. reflexivity.
Qed.

Lemma substring_nil (a : jsstring) : substring a [] -> a = [].
Proof.
  intros (p & q & H). symmetry in H.
  apply app_eq_nil in H as [_ H]. apply app_eq_nil in H as [H _]. exact H.
Qed.

Section FilteringMore.

Variable toLowerCase : jsstring -> jsstring.

Lemma keepTemplate_narrower (cat q q' : jsstring) (t : Template) :
  substring q q' ->
  keepTemplate toLowerCase cat q' t = true ->
  keepTemplate toLowerCase cat q t = true.
Proof.
  intros Hsub. unfold keepTemplate.
  destruct (negb _ && negb _); [discriminate|].
  destruct (falsy q) eqn:Eq; [reflexivity|].
  destruct (falsy q') eqn:Eq'.
  - apply falsy_nil in Eq'. subst q'. apply substring_nil in Hsub. subst q.
    discriminate Eq.
  - rewrite !includes_substring. intros H. eapply substring_trans; eassumption.
Qed.

Lemma keepTemplate_any_category (cat q : jsstring) (t : Template) :
  keepTemplate toLowerCase cat q t = true ->
  keepTemplate toLowerCase (lit "All") q t = true.
Proof.
  unfold keepTemplate. destruct (negb _ && negb _); [discriminate|].
  intros H. exact H.
Qed.

End FilteringMore.

(** X4: a search that contains another one, lower-cased, shows no template
    the other does not show, in the same order; and a category shows no
    template that "All" does not show for the same search. *)
Theorem renderList_narrows (toLowerCase : jsstring -> jsstring)
    (cat search search' : jsstring) (s : State)
    (Hsub : substring (toLowerCase search) (toLowerCase search')) :
  sublist (displayedList (renderList toLowerCase cat search' s))
          (displayedList (renderList toLowerCase cat search s))
  /\ sublist (displayedList (renderList toLowerCase cat search s))
             (displayedList (renderList toLowerCase (lit "All") search s)).
Proof.
  rewrite !renderList_displayedList. split.
  - apply filter_sublist_impl. intros t.
    apply keepTemplate_narrower. exact Hsub.
  - apply filter_sublist_impl. intros t. apply keepTemplate_any_category.
Qed.

(** X4 on a run: "password" narrows "PASS". *)
Lemma renderList_narrows_witness :
  substring (asciiLower (lit "PASS")) (asciiLower (lit "password"))
  /\ sublist
       (displayedList (renderList asciiLower (lit "All") (lit "password")
                         (loaded [salesTemplate; supportTemplate])))
       (displayedList (renderList asciiLower (lit "All") (lit "PASS")
                         (loaded [salesTemplate; supportTemplate]))).
Proof.
  assert (substring (asciiLower (lit "PASS")) (asciiLower (lit "password")))
    as Hsub by (exists [], (lit "word"); reflexivity).
  split; [exact Hsub|].
  exact (proj1 (renderList_narrows asciiLower (lit "All") (lit "PASS")
                  (lit "password") _ Hsub)).
Defined.

(** X5: a template with a category that is not empty finds its category in
    the dropdown, and selecting it with an empty search shows the template.
    A template whose category is the empty string is listed under "General"
    and, like one without a category, is not shown under "General". *)
Theorem named_category_is_selectable (toLowerCase : jsstring -> jsstring)
    (s : State) (t : Template) (c : jsstring)
    (Hempty : toLowerCase [] = [])
    (Hin : In t (templatesList s)) (Hcat : category t = Some c) :
  (c <> [] ->
     In c (categorySel (page (populateCategories s)))
     /\ In t (displayedList (renderList toLowerCase c [] s)))
  /\ (c = [] ->
     In (lit "General") (categorySel (page (populateCategories s)))
     /\ ~ In t (displayedList (renderList toLowerCase (lit "General") [] s))).
Proof.
  split.
  - intros Hne. split.
    + simpl. apply categoriesOf_In. right. exists t. split; [exact Hin|].
      rewrite Hcat. destruct c; [congruence | reflexivity].
    + rewrite renderList_displayedList. apply filter_In. split; [exact Hin|].
      unfold keepTemplate. rewrite Hcat, Hempty. simpl.
      rewrite str_eqb_refl, andb_false_r. reflexivity.
  - intros ->. split.
    + simpl. apply categoriesOf_In. right. exists t. split; [exact Hin|].
      rewrite Hcat. reflexivity.
    + rewrite renderList_displayedList. intros H.
      apply filter_In in H as [_ H]. unfold keepTemplate in H.
      rewrite Hcat in H. discriminate H.
Qed.

(** X5 on a run: the "Sales" template under "Sales". *)
Lemma named_category_witness :
  In salesTemplate (templatesList (loaded [salesTemplate; uncategorised]))
  /\ In salesTemplate
       (displayedList (renderList asciiLower (lit "Sales") []
                         (loaded [salesTemplate; uncategorised]))).
Proof.
  assert (In salesTemplate (templatesList (loaded [salesTemplate; uncategorised])))
    as Hin by (simpl; auto).
  split; [exact Hin|].
  apply (proj1 (named_category_is_selectable asciiLower
                  (loaded [salesTemplate; uncategorised]) salesTemplate
                  (lit "Sales") eq_refl Hin eq_refl)).
  discriminate.
Defined.

(** ** What a rebuild puts on the page *)

Lemma displayedList_after_assign (a : list Template) (x : State) :
  displayedList (updateCount (assign_displayed a x)) = a.
Proof. unfold displayedList. simpl. apply deref_alloc_new. Qed.

(** [renderList] in one piece: the new array, the count, then the view. *)
Lemma renderList_unfolded (toLowerCase : jsstring -> jsstring)
    (cat search : jsstring) (s : State) :
  let kept :=
    List.filter (keepTemplate toLowerCase cat (toLowerCase search))
      (templatesList s) in
  renderList toLowerCase cat search s
  = set_page
      (set_listEl
         (if (length kept =? 0)%nat
          then [Paragraph (if isEn (targetLang s) then lit "No templates found."
                           else noResultsJa)]
          else imap (fun i t => CardArticle
                       (createCard (targetLang s) t (Z.of_nat i))) kept))
      (updateCount (assign_displayed kept (set_page (set_listEl []) s))).
Proof.
  intros kept. unfold renderList. cbv zeta. rewrite orElse_Some_id.
  change (templatesList (set_page (set_listEl []) s)) with (templatesList s).
  fold kept. rewrite displayedList_after_assign.
  destruct (length kept =? 0)%nat; reflexivity.
Qed.

Lemma renderList_countEl (toLowerCase : jsstring -> jsstring)
    (cat search : jsstring) (s : State) :
  (templates s < length (heap s))%nat ->
  countInSync (renderList toLowerCase cat search s).
Proof.
  intros Hwt. unfold countInSync.
  rewrite renderList_displayedList, renderList_templatesList by exact Hwt.
  rewrite renderList_unfolded. cbv zeta. simpl.
  unfold displayedList, templatesList. simpl.
  rewrite deref_alloc_new, deref_alloc_old by exact Hwt. reflexivity.
Qed.

Lemma renderList_categorySel (toLowerCase : jsstring -> jsstring)
    (cat search : jsstring) (s : State) :
  categorySel (page (renderList toLowerCase cat search s)) = categorySel (page s).
Proof. rewrite renderList_unfolded. reflexivity. Qed.

(** The children of the list element after a rebuild. *)
Lemma renderList_listEl (toLowerCase : jsstring -> jsstring)
    (cat search : jsstring) (s : State) :
  let s' := renderList toLowerCase cat search s in
  (displayedList s' = [] ->
     listEl (page s')
     = [Paragraph (if isEn (targetLang s) then lit "No templates found."
                   else noResultsJa)])
  /\ (displayedList s' <> [] ->
      length (listEl (page s')) = length (displayedList s')
      /\ forall i : nat,
           listEl (page s') !! i
           = (fun t => CardArticle (createCard (targetLang s) t (Z.of_nat i)))
               <$> displayedList s' !! i).
Proof.
  cbv zeta. rewrite renderList_displayedList, renderList_unfolded. cbv zeta.
  set (kept := List.filter _ _). simpl. split.
  - intros ->. reflexivity.
  - intros Hne. destruct kept as [|t0 rest] eqn:E; [congruence|].
    rewrite <- E. replace (length kept =? 0)%nat with false
      by (rewrite E; reflexivity).
    split; [apply length_imap|].
    intros i. apply list_lookup_imap.
Qed.

(** X6: after [renderList] the list element holds, when nothing is
    displayed, the one no-results paragraph in the current language; and
    otherwise one card per displayed template, in order, the card at position
    [i] built for the template at position [i] with index [i]. *)
Theorem renderList_view (toLowerCase : jsstring -> jsstring)
    (cat search : jsstring) (s : State) :
  let s' := renderList toLowerCase cat search s in
  (displayedList s' = [] ->
     listEl (page s')
     = [Paragraph (if isEn (targetLang s) then lit "No templates found."
                   else noResultsJa)])
  /\ (displayedList s' <> [] ->
      length (listEl (page s')) = length (displayedList s')
      /\ forall i : nat,
           listEl (page s') !! i
           = (fun t => CardArticle (createCard (targetLang s) t (Z.of_nat i)))
               <$> displayedList s' !! i).
Proof.
  cbv zeta.
  destruct (renderList_listEl toLowerCase cat search s) as [Hnone Hcards].
  split; [exact Hnone | exact Hcards].
Qed.

(** ** What the modal shows *)

Lemma arrayGet_in_range {A : Type} (a : list A) (i : Z) :
  0 <= i < Z.of_nat (length a) -> exists x, arrayGet a i = Some x.
Proof.
  intros [H0 H1]. unfold arrayGet.
  destruct (Z.ltb_spec i 0); [lia|].
  apply lookup_lt_is_Some_2. lia.
Qed.

Lemma arrayGet_Some_in_range {A : Type} (a : list A) (i : Z) (x : A) :
  arrayGet a i = Some x -> 0 <= i < Z.of_nat (length a).
Proof.
  intros H. apply arrayGet_Some_nonneg in H as [H0 H].
  apply lookup_lt_Some in H. lia.
Qed.

(** [showModal] with the index on a template and the modal element there. *)
Lemma showModal_in_range (s : State) (m : Modal) (t : Template) :
  arrayGet (displayedList s) (modalIndex s) = Some t ->
  modalEl s = Some m ->
  showModal s
  = set_modalEl
      (Some (modalFor (targetLang s) (length (displayedList s)) (modalIndex s)
               (modalDisplay m) t)) s.
Proof.
  intros Ht Hm. unfold showModal. cbv zeta.
  destruct (arrayGet_Some_in_range _ _ _ Ht) as [H0 H1].
  destruct (Z.ltb_spec (modalIndex s) 0); [lia|].
  destruct (Z.geb_spec (modalIndex s) (Z.of_nat (length (displayedList s))));
    [lia|].
  simpl. rewrite Ht, Hm. reflexivity.
Qed.

Lemma openModalByIndex_in_range (i : Z) (s : State) (t : Template) :
  arrayGet (displayedList s) i = Some t ->
  openModalByIndex i s
  = set_modalEl
      (Some (modalFor (targetLang s) (length (displayedList s)) i DisplayFlex t))
      (set_modalIndex i s).
Proof.
  intros Ht. unfold openModalByIndex.
  destruct (arrayGet_Some_in_range _ _ _ Ht) as [H0 H1].
  destruct (Z.ltb_spec i 0); [lia|].
  destruct (Z.geb_spec i (Z.of_nat (length (displayedList s)))); [lia|].
  simpl. cbv zeta.
  assert (exists m, modalEl (set_modalIndex i (ensureModal s)) = Some m) as [m Hm].
  { unfold ensureModal. destruct (modalEl s) eqn:E; simpl; rewrite ?E; eauto. }
  rewrite (showModal_in_range (set_modalIndex i (ensureModal s)) m t).
  - unfold ensureModal. destruct (modalEl s); reflexivity.
  - unfold ensureModal. destruct (modalEl s); exact Ht.
  - exact Hm.
Qed.

(** A click on a card in the very state [renderList] returns, with the
    language the card was built in still current: the modal opens on the
    card's template, with the card's title, badge and greeting. *)
Lemma card_click_right_after_render (toLowerCase : jsstring -> jsstring)
    (cat search : jsstring) (s : State) (i : nat) (c : Card)
    (Hcard : listEl (page (renderList toLowerCase cat search s)) !! i
             = Some (CardArticle c)) :
  let s' := modalStep (CardClick (cardIndex c))
              (renderList toLowerCase cat search s) in
  cardIndex c = Z.of_nat i
  /\ modalIndex s' = Z.of_nat i
  /\ arrayGet (displayedList s') (modalIndex s') = Some (cardTemplate c)
  /\ exists m content,
       modalEl s' = Some m
       /\ modalDisplay m = DisplayFlex
       /\ modalContent m = Some content
       /\ modalTitle content = cardSubject c
       /\ modalBadge content = cardBadge c
       /\ modalGreeting content = cardGreeting c
       /\ modalFullBody content = escapeHtml (Some (body (cardTemplate c))).
Proof.
  cbv zeta.
  destruct (renderList_listEl toLowerCase cat search s) as [Hnone Hcards].
  cbv zeta in Hnone, Hcards.
  set (r := renderList toLowerCase cat search s) in *.
  destruct (displayedList r) as [|t0 rest] eqn:Ed.
  { rewrite (Hnone eq_refl) in Hcard. destruct i; discriminate Hcard. }
  destruct (Hcards ltac:(discriminate)) as [_ Hat].
  rewrite Hat in Hcard.
  destruct ((t0 :: rest) !! i) as [t|] eqn:Et; [|discriminate Hcard].
  simpl in Hcard. injection Hcard as <-. simpl.
  assert (arrayGet (displayedList r) (Z.of_nat i) = Some t) as Hget.
  { unfold arrayGet. destruct (Z.ltb_spec (Z.of_nat i) 0); [lia|].
    rewrite Nat2Z.id, Ed. exact Et. }
  assert (targetLang r = targetLang s) as Hlang
    by apply (renderList_state toLowerCase cat search s).
  rewrite (openModalByIndex_in_range _ _ _ Hget). simpl.
  split; [reflexivity|]. split; [reflexivity|].
  split; [exact Hget|].
  eexists. eexists. split; [reflexivity|]. simpl.
  rewrite Hlang. repeat split; reflexivity.
Qed.


Lemma showPrevModal_shows (s : State) :
  navigable s -> modalShowsIndex s -> modalShowsIndex (showPrevModal s).
Proof.
  intros [Hr _] Hs. unfold showPrevModal.
  destruct (Z.gtb_spec (modalIndex s) 0) as [Hgt|]; [|exact Hs].
  destruct (Hs ltac:(lia)) as (m & t & Hm & _ & _).
  destruct (arrayGet_in_range (displayedList s) (modalIndex s - 1) ltac:(lia))
    as [t' Ht'].
  rewrite (showModal_in_range (set_modalIndex (modalIndex s - 1) s) m t' Ht' Hm).
  intros _. eexists. exists t'. split; [reflexivity|]. split; [exact Ht'|].
  reflexivity.
Qed.

Lemma showNextModal_shows (s : State) :
  navigable s -> modalEl s <> None ->
  modalShowsIndex s -> modalShowsIndex (showNextModal s).
Proof.
  intros [Hr _] Hex Hs. unfold showNextModal.
  destruct (Z.ltb_spec (modalIndex s) (Z.of_nat (length (displayedList s)) - 1))
    as [Hlt|]; [|exact Hs].
  destruct (modalEl s) as [m|] eqn:Hm; [|congruence].
  destruct (arrayGet_in_range (displayedList s) (modalIndex s + 1) ltac:(lia))
    as [t' Ht'].
  rewrite (showModal_in_range (set_modalIndex (modalIndex s + 1) s) m t' Ht' Hm).
  intros _. eexists. exists t'. split; [reflexivity|]. split; [exact Ht'|].
  reflexivity.
Qed.

Lemma closeModal_shows (s : State) :
  modalShowsIndex s -> modalShowsIndex (closeModal s).
Proof.
  intros Hs. unfold closeModal.
  destruct (modalEl s) as [m|] eqn:Hm; [|exact Hs].
  unfold modalShowsIndex. simpl. lia.
Qed.

Lemma openModalByIndex_shows (i : Z) (s : State) :
  modalShowsIndex s -> modalShowsIndex (openModalByIndex i s).
Proof.
  intros Hs.
  destruct (Z.ltb_spec i 0) as [Hneg|Hpos].
  { rewrite openModalByIndex_out_of_range by lia. exact Hs. }
  destruct (Z.ltb_spec i (Z.of_nat (length (displayedList s)))) as [Hlt|Hge].
  - destruct (arrayGet_in_range (displayedList s) i ltac:(lia)) as [t Ht].
    rewrite (openModalByIndex_in_range i s t Ht).
    intros _. eexists. exists t. split; [reflexivity|]. split; [exact Ht|].
    reflexivity.
  - rewrite openModalByIndex_out_of_range by lia. exact Hs.
Qed.

Lemma modalStep_shows (ev : ModalEvent) (s : State) :
  navigable s -> modalShowsIndex s -> modalShowsIndex (modalStep ev s).
Proof.
  intros Hn Hs. destruct ev as [i| | | | |k]; simpl.
  - apply openModalByIndex_shows. exact Hs.
  - destruct (modalEl s); [apply showPrevModal_shows; assumption | exact Hs].
  - destruct (modalEl s) eqn:E; [|exact Hs].
    apply showNextModal_shows; [exact Hn | congruence | exact Hs].
  - destruct (modalEl s); [apply closeModal_shows|]; exact Hs.
  - destruct (modalEl s); [apply closeModal_shows|]; exact Hs.
  - unfold onKeyDown. destruct (modalEl s) as [m|] eqn:E; [|exact Hs].
    destruct (modalDisplay m); try exact Hs.
    destruct k; try exact Hs.
    + apply closeModal_shows. exact Hs.
    + apply showNextModal_shows; [exact Hn | congruence | exact Hs].
    + apply showPrevModal_shows; assumption.
Qed.

Lemma runModal_shows (evs : list ModalEvent) (s : State) :
  navigable s -> modalShowsIndex s ->
  navigable (runModal evs s) /\ modalShowsIndex (runModal evs s).
Proof.
  revert s. induction evs as [|ev evs IH]; intros s Hn Hs; simpl.
  - split; assumption.
  - apply IH; [apply modalStep_navigable | apply modalStep_shows]; assumption.
Qed.

Lemma modalInitial_shows (s : State) : modalInitial s -> modalShowsIndex s.
Proof. intros [Hi _]. unfold modalShowsIndex. rewrite Hi. lia. Qed.

Lemma runModal_targetLang (evs : list ModalEvent) (s : State) :
  targetLang (runModal evs s) = targetLang s.
Proof.
  revert s. induction evs as [|ev evs IH]; intros s; simpl; [reflexivity|].
  rewrite IH. clear IH.
  assert (forall x, targetLang (showModal x) = targetLang x) as Hshow.
  { intros x. unfold showModal. cbv zeta. destruct (_ || _); [reflexivity|].
    destruct (arrayGet _ _); [|reflexivity]. destruct (modalEl x); reflexivity. }
  assert (targetLang (showPrevModal s) = targetLang s) as Hprev.
  { unfold showPrevModal. destruct (_ >? _); [|reflexivity].
    rewrite Hshow. reflexivity. }
  assert (targetLang (showNextModal s) = targetLang s) as Hnext.
  { unfold showNextModal. destruct (_ <? _); [|reflexivity].
    rewrite Hshow. reflexivity. }
  assert (targetLang (closeModal s) = targetLang s) as Hclose.
  { unfold closeModal. destruct (modalEl s); reflexivity. }
  destruct ev as [i| | | | |k]; simpl.
  - unfold openModalByIndex. destruct (_ || _); [reflexivity|]. cbv zeta.
    simpl. rewrite Hshow. unfold ensureModal. destruct (modalEl s); reflexivity.
  - destruct (modalEl s); auto.
  - destruct (modalEl s); auto.
  - destruct (modalEl s); auto.
  - destruct (modalEl s); auto.
  - unfold onKeyDown. destruct (modalEl s) as [m|]; [|reflexivity].
    destruct (modalDisplay m); try reflexivity. destruct k; auto.
Qed.

(** X8: over a fixed displayed list, in every state the modal events reach
    from the initial state with the modal open, the modal shows the template
    at its index: its title, badge and whole body are that template's,
    sanitized, the greeting and closing are those of the language, and the
    copy button reads "Copy Email".  Its [prev] button is disabled exactly at
    index 0 and its [next] button exactly at the last index, and a click on
    a disabled button changes nothing. *)
Theorem modal_shows_template_at_index (s0 : State) (evs : list ModalEvent)
    (Hinit : modalInitial s0) (Hopen : isOpen (runModal evs s0)) :
  let s := runModal evs s0 in
  exists m t,
    modalEl s = Some m
    /\ arrayGet (displayedList s0) (modalIndex s) = Some t
    /\ m = modalFor (targetLang s0) (length (displayedList s0)) (modalIndex s)
            DisplayFlex t
    /\ (prevDisabled m = true <-> modalIndex s = 0)
    /\ (nextDisabled m = true
        <-> modalIndex s = Z.of_nat (length (displayedList s0)) - 1)
    /\ (prevDisabled m = true -> modalStep PrevClick s = s)
    /\ (nextDisabled m = true -> modalStep NextClick s = s).
Proof.
  cbv zeta.
  destruct (runModal_shows evs s0 (modalInitial_navigable s0 Hinit)
              (modalInitial_shows s0 Hinit)) as [[Hr Ho] Hs].
  destruct (runModal_navigable evs s0 (modalInitial_navigable s0 Hinit))
    as [_ Hd].
  pose proof (runModal_targetLang evs s0) as Hl.
  set (s := runModal evs s0) in *.
  specialize (Ho Hopen).
  destruct (Hs Ho) as (m & t & Hm & Ht & Heq).
  destruct Hopen as (m' & Hm' & Hflex).
  assert (m' = m) by congruence. subst m'.
  rewrite Hflex, Hd, Hl in Heq. rewrite Hd in Ht, Hr.
  exists m, t. split; [exact Hm|]. split; [exact Ht|]. split; [exact Heq|].
  assert (prevDisabled m = true <-> modalIndex s = 0) as Hp.
  { rewrite Heq. simpl. rewrite Z.leb_le. lia. }
  assert (nextDisabled m = true
          <-> modalIndex s = Z.of_nat (length (displayedList s0)) - 1) as Hn.
  { rewrite Heq. simpl. rewrite Z.geb_le. lia. }
  split; [exact Hp|]. split; [exact Hn|]. split.
  - intros H. apply Hp in H. simpl. rewrite Hm.
    apply showPrevModal_at_first. lia.
  - intros H. apply Hn in H. simpl. rewrite Hm.
    apply showNextModal_at_last. rewrite Hd. lia.
Qed.

(** X8 on a run that ends on the last of three templates. *)
Lemma modal_shows_witness :
  modalInitial (loaded [salesTemplate; supportTemplate; uncategorised])
  /\ isOpen (runModal [CardClick 1; NextClick]
               (loaded [salesTemplate; supportTemplate; uncategorised]))
  /\ exists m t,
       modalEl (runModal [CardClick 1; NextClick]
                  (loaded [salesTemplate; supportTemplate; uncategorised]))
       = Some m
       /\ arrayGet
            (displayedList (loaded [salesTemplate; supportTemplate; uncategorised]))
            (modalIndex
               (runModal [CardClick 1; NextClick]
                  (loaded [salesTemplate; supportTemplate; uncategorised])))
          = Some t.
Proof.
  assert (modalInitial (loaded [salesTemplate; supportTemplate; uncategorised]))
    as Hinit by (split; vm_compute; reflexivity).
  assert (isOpen (runModal [CardClick 1; NextClick]
            (loaded [salesTemplate; supportTemplate; uncategorised])))
    as Hopen by (eexists; split; vm_compute; reflexivity).
  split; [exact Hinit|]. split; [exact Hopen|].
  destruct (modal_shows_template_at_index _ [CardClick 1; NextClick] Hinit Hopen)
    as (m & t & Hm & Ht & _).
  exists m, t. split; assumption.
Defined.

(** ** Going forth and back *)

Lemma state_eta (s : State) :
  s = mkState (heap s) (templates s) (displayed s) (targetLang s)
        (modalIndex s) (modalEl s) (page s) (clipboard s) (alerts s).
Proof. destruct s. reflexivity. Qed.

Lemma showNextModal_step (s : State) (m : Modal) (t' : Template) :
  modalEl s = Some m ->
  arrayGet (displayedList s) (modalIndex s + 1) = Some t' ->
  showNextModal s
  = mkState (heap s) (templates s) (displayed s) (targetLang s)
      (modalIndex s + 1)
      (Some (modalFor (targetLang s) (length (displayedList s))
               (modalIndex s + 1) (modalDisplay m) t'))
      (page s) (clipboard s) (alerts s).
Proof.
  intros Hm Ht'. unfold showNextModal.
  destruct (arrayGet_Some_in_range _ _ _ Ht') as [H0 H1].
  destruct (Z.ltb_spec (modalIndex s) (Z.of_nat (length (displayedList s)) - 1));
    [|lia].
  rewrite (showModal_in_range (set_modalIndex (modalIndex s + 1) s) m t' Ht' Hm).
  reflexivity.
Qed.

Lemma showPrevModal_step (s : State) (m : Modal) (t' : Template) :
  modalEl s = Some m ->
  arrayGet (displayedList s) (modalIndex s - 1) = Some t' ->
  showPrevModal s
  = mkState (heap s) (templates s) (displayed s) (targetLang s)
      (modalIndex s - 1)
      (Some (modalFor (targetLang s) (length (displayedList s))
               (modalIndex s - 1) (modalDisplay m) t'))
      (page s) (clipboard s) (alerts s).
Proof.
  intros Hm Ht'. unfold showPrevModal.
  destruct (arrayGet_Some_in_range _ _ _ Ht') as [H0 H1].
  destruct (Z.gtb_spec (modalIndex s) 0); [|lia].
  rewrite (showModal_in_range (set_modalIndex (modalIndex s - 1) s) m t' Ht' Hm).
  reflexivity.
Qed.

Lemma next_then_prev (s : State) :
  modalShowsIndex s ->
  0 <= modalIndex s < Z.of_nat (length (displayedList s)) - 1 ->
  showPrevModal (showNextModal s) = s.
Proof.
  intros Hs [H0 H1].
  destruct (Hs H0) as (m & t & Hm & Ht & Heq).
  destruct (arrayGet_in_range (displayedList s) (modalIndex s + 1) ltac:(lia))
    as [t' Ht'].
  rewrite (showNextModal_step s m t' Hm Ht').
  erewrite showPrevModal_step; [|reflexivity|].
  - etransitivity; [|symmetry; apply state_eta].
    simpl. replace (modalIndex s + 1 - 1) with (modalIndex s) by lia.
    rewrite Hm. f_equal. f_equal. symmetry. exact Heq.
  - simpl. replace (modalIndex s + 1 - 1) with (modalIndex s) by lia.
    exact Ht.
Qed.

Lemma prev_then_next (s : State) :
  modalShowsIndex s ->
  0 < modalIndex s <= Z.of_nat (length (displayedList s)) - 1 ->
  showNextModal (showPrevModal s) = s.
Proof.
  intros Hs [H0 H1].
  destruct (Hs ltac:(lia)) as (m & t & Hm & Ht & Heq).
  destruct (arrayGet_in_range (displayedList s) (modalIndex s - 1) ltac:(lia))
    as [t' Ht'].
  rewrite (showPrevModal_step s m t' Hm Ht').
  erewrite showNextModal_step; [|reflexivity|].
  - etransitivity; [|symmetry; apply state_eta].
    simpl. replace (modalIndex s - 1 + 1) with (modalIndex s) by lia.
    rewrite Hm. f_equal. f_equal. symmetry. exact Heq.
  - simpl. replace (modalIndex s - 1 + 1) with (modalIndex s) by lia.
    exact Ht.
Qed.

(** X9: in every state the modal events reach from the initial state with
    the modal open, [next] followed by [prev] brings back the very same
    state when the index is not the last, and [prev] followed by [next] does
    when it is not the first: index, content, buttons and all. *)
Theorem modal_next_prev_round_trip (s0 : State) (evs : list ModalEvent)
    (Hinit : modalInitial s0) (Hopen : isOpen (runModal evs s0)) :
  let s := runModal evs s0 in
  (modalIndex s < Z.of_nat (length (displayedList s)) - 1 ->
     modalStep PrevClick (modalStep NextClick s) = s
     /\ modalStep (KeyDown ArrowLeft) (modalStep (KeyDown ArrowRight) s) = s)
  /\ (0 < modalIndex s ->
     modalStep NextClick (modalStep PrevClick s) = s
     /\ modalStep (KeyDown ArrowRight) (modalStep (KeyDown ArrowLeft) s) = s).
Proof.
  cbv zeta.
  destruct (runModal_shows evs s0 (modalInitial_navigable s0 Hinit)
              (modalInitial_shows s0 Hinit)) as [[Hr Ho] Hs].
  set (s := runModal evs s0) in *.
  specialize (Ho Hopen).
  destruct Hopen as (m & Hm & Hflex).
  assert (forall x, modalEl x = Some m ->
            modalStep PrevClick x = showPrevModal x
            /\ modalStep NextClick x = showNextModal x
            /\ modalStep (KeyDown ArrowLeft) x = showPrevModal x
            /\ modalStep (KeyDown ArrowRight) x = showNextModal x) as Hsteps.
  { intros x Hx. simpl. unfold onKeyDown. rewrite Hx, Hflex. auto. }
  destruct (Hsteps s Hm) as (Hp & Hn & Hkp & Hkn).
  split.
  - intros Hlt.
    pose proof (next_then_prev s Hs ltac:(lia)) as Hround.
    assert (modalEl (showNextModal s) <> None) as Hex.
    { intros Hnone. rewrite <- Hround in Hm. unfold showPrevModal in Hm.
      destruct (_ >? _) in Hm.
      - pose proof (showModal_frame
          (set_modalIndex (modalIndex (showNextModal s) - 1) (showNextModal s)))
          as (_ & _ & _ & Hdisp).
        unfold modalDisplayOf in Hdisp. rewrite Hm in Hdisp. simpl in Hdisp.
        rewrite Hnone in Hdisp. discriminate Hdisp.
      - congruence. }
    rewrite Hn, Hkn. simpl. unfold onKeyDown.
    destruct (modalEl (showNextModal s)) as [m1|] eqn:Hm1; [|congruence].
    assert (modalDisplay m1 = DisplayFlex) as Hflex1.
    { destruct (Hs Ho) as (m0 & t0 & Hm0 & _ & _).
      destruct (arrayGet_in_range (displayedList s) (modalIndex s + 1)
                  ltac:(lia)) as [t' Ht'].
      rewrite (showNextModal_step s m0 t' Hm0 Ht') in Hm1. simpl in Hm1.
      injection Hm1 as <-. simpl. congruence. }
    rewrite Hflex1. split; exact Hround.
  - intros Hgt.
    pose proof (prev_then_next s Hs ltac:(lia)) as Hround.
    destruct (Hs Ho) as (m0 & t0 & Hm0 & _ & _).
    destruct (arrayGet_in_range (displayedList s) (modalIndex s - 1)
                ltac:(lia)) as [t' Ht'].
    rewrite Hp, Hkp. simpl. unfold onKeyDown.
    pose proof (showPrevModal_step s m0 t' Hm0 Ht') as Hstep.
    destruct (modalEl (showPrevModal s)) as [m1|] eqn:Hm1;
      [|rewrite Hstep in Hm1; discriminate Hm1].
    assert (modalDisplay m1 = DisplayFlex) as Hflex1.
    { rewrite Hstep in Hm1. simpl in Hm1. injection Hm1 as <-. simpl.
      congruence. }
    rewrite Hflex1. split; exact Hround.
Qed.

(** X9 on a run: from the second of three templates. *)
Lemma modal_round_trip_witness :
  modalInitial (loaded [salesTemplate; supportTemplate; uncategorised])
  /\ isOpen (runModal [CardClick 1]
               (loaded [salesTemplate; supportTemplate; uncategorised]))
  /\ modalStep PrevClick
       (modalStep NextClick
          (runModal [CardClick 1]
             (loaded [salesTemplate; supportTemplate; uncategorised])))
     = runModal [CardClick 1]
         (loaded [salesTemplate; supportTemplate; uncategorised]).
Proof.
  assert (modalInitial (loaded [salesTemplate; supportTemplate; uncategorised]))
    as Hinit by (split; vm_compute; reflexivity).
  assert (isOpen (runModal [CardClick 1]
            (loaded [salesTemplate; supportTemplate; uncategorised])))
    as Hopen by (eexists; split; vm_compute; reflexivity).
  assert (modalIndex (runModal [CardClick 1]
            (loaded [salesTemplate; supportTemplate; uncategorised]))
          < Z.of_nat (length (displayedList (runModal [CardClick 1]
              (loaded [salesTemplate; supportTemplate; uncategorised])))) - 1)
    as Hlt by (vm_compute; reflexivity).
  split; [exact Hinit|]. split; [exact Hopen|].
  exact (proj1 (proj1 (modal_next_prev_round_trip _ [CardClick 1] Hinit Hopen)
                  Hlt)).
Defined.

(** ** The translation client, call by call *)

Lemma orElse_nonempty (v : option jsstring) (d : jsstring) :
  d <> [] -> orElse v d <> [].
Proof. intros Hd. destruct v as [[|c s]|]; simpl; congruence. Qed.

(** X10: for a text that is not empty [translateTextForce] sends exactly one
    request, the one for this text and this language, and its result is
    never empty: it is the translated text when the service gives one that
    is not empty, and the input text when the service gives an empty one. *)
Theorem translateTextForce_one_request (net : Network) (l text lang : jsstring)
    (Hne : text <> []) :
  snd (run net l (translateTextForce text lang)) = [translateRequest text lang]
  /\ (exists v, fst (run net l (translateTextForce text lang)) = Fulfilled v
                /\ v <> [])
  /\ (forall res translated,
        onFetch net (translateRequest text lang) = Fulfilled res ->
        onJson net res = Fulfilled (DataValue (Some translated)) ->
        fst (run net l (translateTextForce text lang))
        = Fulfilled (if falsy translated then text else translated)).
Proof.
  rewrite translateTextForce_run.
  destruct (falsy text) eqn:E; [apply falsy_nil in E; congruence|].
  simpl. split; [reflexivity|]. split.
  - eexists. split; [reflexivity|].
    destruct (onFetch net _) as [res|e]; [|exact Hne].
    destruct (onJson net res) as [[|translated]|e]; try exact Hne.
    apply orElse_nonempty. exact Hne.
  - intros res translated -> ->. f_equal.
    destruct translated; reflexivity.
Qed.

(** X10 on a network that answers. *)
Lemma translateTextForce_one_request_witness :
  lit "Hi" <> []
  /\ snd (run bracketNetwork (lit "ja") (translateTextForce (lit "Hi") (lit "ja")))
     = [translateRequest (lit "Hi") (lit "ja")].
Proof.
  assert (lit "Hi" <> []) as Hne by discriminate.
  split; [exact Hne|].
  exact (proj1 (translateTextForce_one_request bracketNetwork (lit "ja")
                  (lit "Hi") (lit "ja") Hne)).
Defined.

(** ** Batches: what holds along every order of answers *)

Lemma behaves_bind {A B : Type} (P : Request -> Prop) (p : Async A)
    (f : A -> Async B) :
  behaves P p -> (forall a, behaves P (f a)) -> behaves P (bind p f).
Proof.
  intros Hp Hf. induction p as [a|e|req k IH|res k IH|k IH]; simpl in *.
  - apply Hf.
  - exact Hp.
  - destruct Hp as [Hreq Hk]. split; [exact Hreq|]. intros r. apply IH, Hk.
  - intros r. apply IH, Hp.
  - intros l. apply IH, Hp.
Qed.

Lemma behaves_translateTextForce (text lang : jsstring) :
  behaves translationRequest (translateTextForce text lang).
Proof.
  unfold translateTextForce. destruct text as [|c text]; simpl; [exact I|].
  split.
  - split; [discriminate | reflexivity].
  - intros [res|e]; simpl; [|exact I].
    intros [[|translated]|e]; simpl; exact I.
Qed.

Lemma behaves_translateTemplate (t : Template) :
  behaves translationRequest (translateTemplate t).
Proof.
  simpl. intros l1. apply behaves_bind; [apply behaves_translateTextForce|].
  intros subject'. simpl. intros l2.
  apply behaves_bind; [apply behaves_translateTextForce|].
  intros body'. exact I.
Qed.

Lemma behaves_advance {A : Type} (P : Request -> Prop) (l : jsstring)
    (p : Async A) :
  behaves P p -> behaves P (advance l p).
Proof.
  induction p as [a|e|req k IH|res k IH|k IH]; simpl; auto.
Qed.

Lemma behaves_resume {A : Type} (P : Request -> Prop) (l : jsstring)
    (a : Answer) (p p' : Async A) :
  behaves P p -> resume l a p = Some p' -> behaves P p'.
Proof.
  intros Hp. destruct p as [x|e|req k|res k|k]; destruct a as [r|d]; simpl;
    try discriminate; intros H; injection H as <-; apply behaves_advance.
  - apply Hp.
  - apply Hp.
Qed.

Lemma behaves_pendingFetch {A : Type} (P : Request -> Prop) (p : Async A) :
  behaves P p -> Forall P (pendingFetch p).
Proof.
  destruct p; simpl; intros Hp; repeat constructor. apply Hp.
Qed.

Lemma promiseAll_not_rejected (P : Request -> Prop) (ts : list (Async Template)) :
  Forall (behaves P) ts -> forall e, promiseAll ts <> Some (Rejected e).
Proof.
  induction 1 as [|p ts Hp Hts IH]; intros e; simpl; [discriminate|].
  destruct p as [r|e'|req k|res k|k]; simpl in Hp.
  - destruct (promiseAll ts) as [[rs|e'']|] eqn:E; try discriminate.
    exact (IH e).
  - destruct Hp.
  - destruct (promiseAll ts) as [[rs|e'']|] eqn:E; try discriminate.
    intros H. injection H as ->. exact (IH e eq_refl).
  - destruct (promiseAll ts) as [[rs|e'']|] eqn:E; try discriminate.
    intros H. injection H as ->. exact (IH e eq_refl).
  - destruct (promiseAll ts) as [[rs|e'']|] eqn:E; try discriminate.
    intros H. injection H as ->. exact (IH e eq_refl).
Qed.

Lemma feed_snoc {A : Type} (script : list (jsstring * Answer)) (l : jsstring)
    (a : Answer) (p q q' : Async A) :
  feed script p = Some q -> resume l a q = Some q' ->
  feed (script ++ [(l, a)]) p = Some q'.
Proof.
  revert p. induction script as [|[l0 a0] rest IH]; intros p; simpl.
  - intros H. injection H as ->. intros ->. reflexivity.
  - destruct (resume l0 a0 p) as [p1|]; [|discriminate]. apply IH.
Qed.

Lemma descendantOf_resume (t : Template) (l : jsstring) (a : Answer)
    (p p' : Async Template) :
  descendantOf t p -> resume l a p = Some p' -> descendantOf t p'.
Proof.
  intros (l0 & script & H) Hr. exists l0, (script ++ [(l, a)]).
  eapply feed_snoc; eassumption.
Qed.

Lemma Forall2_insert_r {A B : Type} (R : A -> B -> Prop) (l : list A)
    (k : list B) (i : nat) (x : A) (y : B) :
  Forall2 R l k -> l !! i = Some x -> R x y -> Forall2 R l (<[i:=y]> k).
Proof.
  intros H Hx Hxy. rewrite <- (list_insert_id l i x Hx).
  apply Forall2_insert; assumption.
Qed.

(** The result of one call, fed answer by answer, is empty exactly when the
    text is. *)
Lemma translateTextForce_feed_empty (text lang : jsstring)
    (script : list (jsstring * Answer)) (v : jsstring) :
  feed script (translateTextForce text lang) = Some (Return v) ->
  (v = [] <-> text = []).
Proof.
  unfold translateTextForce. destruct text as [|c text]; simpl.
  - intros H. apply feed_Return in H as [_ <-]. tauto.
  - destruct script as [|[l1 [r|d]] rest]; simpl; try discriminate.
    destruct r as [res|e]; simpl.
    + destruct rest as [|[l2 [r|d]] rest']; simpl; try discriminate.
      destruct d as [[|translated]|e]; simpl; intros H;
        apply feed_Return in H as [_ <-];
        try (split; discriminate).
      split; [|discriminate]. intros H.
      destruct translated as [[|x y]|]; discriminate H.
    + intros H. apply feed_Return in H as [_ <-]. split; discriminate.
Qed.

Lemma launch_sound (lang : jsstring) (customTemplates : list Template) :
  batchSound customTemplates (launch lang customTemplates).
Proof.
  unfold batchSound, launch. cbv zeta. cbn [tasks issued].
  assert (Forall (behaves translationRequest)
            (List.map (fun t => advance lang (translateTemplate t))
               customTemplates)) as Hb.
  { apply Forall_forall. intros p Hp. apply list_elem_of_In in Hp.
    apply in_map_iff in Hp as (t & <- & _).
    apply behaves_advance, behaves_translateTemplate. }
  split; [|split; [exact Hb|]].
  - induction customTemplates as [|t ts IH]; simpl; constructor.
    + exists lang, []. reflexivity.
    + apply IH. inversion Hb; assumption.
  - apply Forall_app. split; apply Forall_flat_map, Forall_forall; intros t _.
    + apply behaves_pendingFetch, behaves_translateTextForce.
    + destruct (settledAtOnce _); [|constructor].
      apply behaves_pendingFetch, behaves_advance, behaves_translateTemplate.
Qed.

Lemma deliver_sound (customTemplates : list Template) (i : nat) (l : jsstring)
    (a : Answer) (b b' : Batch) :
  batchSound customTemplates b -> deliver i l a b = Some b' ->
  batchSound customTemplates b'.
Proof.
  intros (Hd & Hb & Hi). unfold deliver.
  destruct (tasks b !! i) as [p|] eqn:Ep; [|discriminate].
  destruct (resume l a p) as [p'|] eqn:Er; [|discriminate].
  intros H. injection H as <-. unfold batchSound. cbn [tasks issued].
  assert (behaves translationRequest p') as Hp'.
  { eapply behaves_resume; [|exact Er].
    eapply Forall_lookup_1; eassumption. }
  split; [|split].
  - destruct (Forall2_lookup_r _ _ _ _ _ Hd Ep) as (t & Et & Htp).
    eapply Forall2_insert_r; [exact Hd | exact Et |].
    eapply descendantOf_resume; eassumption.
  - apply Forall_insert; assumption.
  - apply Forall_app. split; [exact Hi|].
    apply behaves_pendingFetch. exact Hp'.
Qed.

Lemma deliverAll_sound (customTemplates : list Template)
    (ds : list (nat * jsstring * Answer)) (b b' : Batch) :
  batchSound customTemplates b -> deliverAll ds b = Some b' ->
  batchSound customTemplates b'.
Proof.
  revert b. induction ds as [|[[i l] a] rest IH]; intros b Hb; simpl.
  - intros H. injection H as <-. exact Hb.
  - destruct (deliver i l a b) as [b1|] eqn:E; [|discriminate].
    apply IH. eapply deliver_sound; eassumption.
Qed.

Lemma descendantOf_Return (t r : Template) :
  descendantOf t (Return r) ->
  category r = category t
  /\ (subject r = [] <-> subject t = [])
  /\ (body r = [] <-> body t = []).
Proof.
  intros (l & script & H).
  apply translateTemplate_sequential in H
    as (s1 & s2 & subject' & body' & lang2 & _ & H1 & H2 & ->).
  simpl. split; [reflexivity|]. split.
  - eapply translateTextForce_feed_empty. exact H1.
  - eapply translateTextForce_feed_empty. exact H2.
Qed.

(** X11: whatever answers arrive for the batch of a load, in whatever order
    and whatever the language is changed to meanwhile, [Promise.all] is never
    rejected, and every request sent is one for a text that is not empty, as
    [translateTextForce] builds it.  When the batch is fulfilled, its records
    are as many as the templates of the dataset and in their order: each has
    its template's category, and an empty subject or body exactly where the
    template has one. *)
Theorem batch_sound_along_deliveries (lang : jsstring)
    (customTemplates : list Template) (ds : list (nat * jsstring * Answer))
    (b : Batch)
    (Hrun : deliverAll ds (launch lang customTemplates) = Some b) :
  (forall e, promiseAll (tasks b) <> Some (Rejected e))
  /\ Forall translationRequest (issued b)
  /\ length (tasks b) = length customTemplates
  /\ (forall rs,
        promiseAll (tasks b) = Some (Fulfilled rs) ->
        Forall2 (fun t r =>
                   category r = category t
                   /\ (subject r = [] <-> subject t = [])
                   /\ (body r = [] <-> body t = []))
                customTemplates rs).
Proof.
  destruct (deliverAll_sound customTemplates ds _ b
              (launch_sound lang customTemplates) Hrun) as (Hd & Hb & Hi).
  split; [eapply promiseAll_not_rejected; exact Hb|].
  split; [exact Hi|].
  split; [symmetry; eapply Forall2_length; exact Hd|].
  intros rs Hrs. apply promiseAll_fulfilled in Hrs. rewrite Hrs in Hd.
  clear Hrs Hb Hi Hrun. revert Hd. generalize customTemplates as ts.
  induction rs as [|r rs IH]; intros ts Hd; simpl in Hd.
  - inversion Hd. constructor.
  - inversion Hd as [|t p ts' ps Htp Hrest]; subst. constructor.
    + apply descendantOf_Return. exact Htp.
    + apply IH. exact Hrest.
Qed.

(** X11 on a run: the four answers for one template. *)
Lemma batch_sound_witness :
  exists b,
    deliverAll
      [ (0%nat, lit "ja", FetchSettled (Fulfilled (mkResponse 200%N [])));
        (0%nat, lit "ja", JsonSettled (Fulfilled (DataValue (Some (lit "A")))));
        (0%nat, lit "ja", FetchSettled (Rejected NetworkError)) ]
      (launch (lit "ja") [salesTemplate]) = Some b
    /\ Forall translationRequest (issued b)
    /\ promiseAll (tasks b)
       = Some (Fulfilled [ {| subject := lit "A"; body := lit "b";
                              category := Some (lit "Sales") |} ]).
Proof.
  eexists. split; [vm_compute; reflexivity|].
  split; [|vm_compute; reflexivity].
  refine (proj1 (proj2 (batch_sound_along_deliveries (lit "ja") [salesTemplate]
    [ (0%nat, lit "ja", FetchSettled (Fulfilled (mkResponse 200%N [])));
      (0%nat, lit "ja", JsonSettled (Fulfilled (DataValue (Some (lit "A")))));
      (0%nat, lit "ja", FetchSettled (Rejected NetworkError)) ] _ _))).
  vm_compute. reflexivity.
Defined.

(** X12: [targetLang] is read afresh at each call.  For a template with a
    subject and a body, the subject is requested in the language current at
    launch and the body in the language current when the subject's call
    returns: after a change of language in between, one record is translated
    into two languages. *)
Theorem body_requested_in_current_language (t : Template)
    (atLaunch later1 later2 : jsstring) (res : Response) (d : Settled Data)
    (e : Error)
    (Hsubject : subject t <> []) (Hbody : body t <> []) :
  pendingFetch (advance atLaunch (translateTemplate t))
    = [translateRequest (subject t) atLaunch]
  /\ (exists p,
        feed [(later1, FetchSettled (Fulfilled res)); (later2, JsonSettled d)]
          (advance atLaunch (translateTemplate t)) = Some p
        /\ pendingFetch p = [translateRequest (body t) later2])
  /\ (exists p,
        feed [(later1, FetchSettled (Rejected e))]
          (advance atLaunch (translateTemplate t)) = Some p
        /\ pendingFetch p = [translateRequest (body t) later1]).
Proof.
  destruct t as [[|c s] [|c' b'] cat]; simpl in *; try congruence.
  split; [reflexivity|]. split.
  - destruct d as [[|[[|x y]|]]|e']; eexists; split; reflexivity.
  - eexists. split; reflexivity.
Qed.

(** X12 on a run: launched in English, answered after a switch to Japanese. *)
Lemma body_language_witness :
  exists p,
    feed [(lit "ja", FetchSettled (Fulfilled (mkResponse 200%N [])));
          (lit "ja", JsonSettled (Fulfilled (DataValue (Some (lit "A")))))]
      (advance (lit "en") (translateTemplate salesTemplate)) = Some p
    /\ pendingFetch p = [translateRequest (lit "b") (lit "ja")].
Proof.
  exact (proj1 (proj2 (body_requested_in_current_language salesTemplate
    (lit "en") (lit "ja") (lit "ja") (mkResponse 200%N [])
    (Fulfilled (DataValue (Some (lit "A")))) NetworkError
    ltac:(discriminate) ltac:(discriminate)))).
Defined.

(** ** After a load *)

Lemma filter_all {A : Type} (f : A -> bool) (l : list A) :
  (forall x, f x = true) -> List.filter f l = l.
Proof.
  intros Hf. induction l as [|x l IH]; simpl; [reflexivity|].
  rewrite Hf, IH. reflexivity.
Qed.

Lemma filter_sublist {A : Type} (f : A -> bool) (l : list A) :
  sublist (List.filter f l) l.
Proof.
  induction l as [|x l IH]; simpl; [constructor|].
  destruct (f x); [apply sublist_skip | apply sublist_cons]; exact IH.
Qed.

Lemma renderList_all (toLowerCase : jsstring -> jsstring) (s : State) :
  toLowerCase [] = [] ->
  displayedList (renderList toLowerCase (lit "All") [] s) = templatesList s.
Proof.
  intros Hempty. rewrite renderList_displayedList. apply filter_all.
  intros t. unfold keepTemplate. rewrite Hempty. reflexivity.
Qed.

Lemma settle_templates (customTemplates : list Template)
    (r : Settled (list Template)) (s : State) :
  let x := populateCategories (fetchTemplates_settle customTemplates r s) in
  templatesList x
  = match r with Fulfilled translated => translated | Rejected _ => customTemplates end
  /\ (templates x < length (heap x))%nat
  /\ templates x = length (heap s)
  /\ categorySel (page x) = categoriesOf (templatesList x)
  /\ modalIndex x = modalIndex s
  /\ modalEl x = modalEl s.
Proof.
  cbv zeta. destruct r as [translated|e].
  - destruct (assign_templates_list translated s) as (H1 & H2 & H3 & H4).
    repeat split; assumption || reflexivity.
  - destruct (assign_templates_list customTemplates s) as (H1 & H2 & H3 & H4).
    repeat split; assumption || reflexivity.
Qed.

(** X13: once the batch of a load has settled, [templates] holds the
    translated records, or the dataset if the batch was rejected, and the
    list shows all of them whatever category and search were selected
    before: [displayed] is another array with the same entries, the count
    and the dropdown say so, and the modal index is the one from before the
    load. *)
Theorem load_shows_every_template (toLowerCase : jsstring -> jsstring)
    (customTemplates : list Template) (r : Settled (list Template)) (s : State)
    (Hempty : toLowerCase [] = []) :
  let s' := fetchTemplates_resume toLowerCase customTemplates r s in
  let loadedList :=
    match r with Fulfilled translated => translated | Rejected _ => customTemplates end in
  templatesList s' = loadedList
  /\ displayedList s' = loadedList
  /\ displayed s' <> templates s'
  /\ countInSync s'
  /\ dropdownInSync s'
  /\ modalIndex s' = modalIndex s.
Proof.
  cbv zeta. unfold fetchTemplates_resume.
  destruct (settle_templates customTemplates r s)
    as (Hl & Hlt & Hn & Hc & Hi & _).
  cbv zeta in Hl, Hlt, Hn, Hc, Hi.
  set (x := populateCategories (fetchTemplates_settle customTemplates r s)) in *.
  destruct (renderList_state toLowerCase (lit "All") [] x)
    as (_ & Ht & Hd & _ & Hidx & _).
  assert (templatesList (renderList toLowerCase (lit "All") [] x)
          = templatesList x) as Hsame
    by (apply renderList_templatesList; exact Hlt).
  split; [rewrite Hsame; exact Hl|].
  split; [rewrite renderList_all by exact Hempty; exact Hl|].
  split; [rewrite Ht, Hd; lia|].
  split; [apply renderList_countEl; exact Hlt|].
  split; [unfold dropdownInSync; rewrite renderList_categorySel, Hsame; exact Hc|].
  rewrite Hidx. exact Hi.
Qed.

(** X13 on a load of two templates. *)
Lemma load_shows_witness :
  asciiLower [] = []
  /\ displayedList
       (fetchTemplates_resume asciiLower [] (Fulfilled [salesTemplate; supportTemplate])
          (initialState emptyPage))
     = [salesTemplate; supportTemplate].
Proof.
  split; [reflexivity|].
  exact (proj1 (proj2 (load_shows_every_template asciiLower []
    (Fulfilled [salesTemplate; supportTemplate]) (initialState emptyPage)
    eq_refl))).
Defined.

(** ** The page along every run *)

Lemma showModal_page (s : State) : page (showModal s) = page s.
Proof.
  unfold showModal. cbv zeta. destruct (_ || _); [reflexivity|].
  destruct (arrayGet _ _); [|reflexivity]. destruct (modalEl s); reflexivity.
Qed.

Lemma modalStep_page (ev : ModalEvent) (s : State) :
  page (modalStep ev s) = page s.
Proof.
  assert (page (showPrevModal s) = page s) as Hprev.
  { unfold showPrevModal. destruct (_ >? _); [|reflexivity].
    rewrite showModal_page. reflexivity. }
  assert (page (showNextModal s) = page s) as Hnext.
  { unfold showNextModal. destruct (_ <? _); [|reflexivity].
    rewrite showModal_page. reflexivity. }
  assert (page (closeModal s) = page s) as Hclose.
  { unfold closeModal. destruct (modalEl s); reflexivity. }
  destruct ev as [i| | | | |k]; simpl.
  - unfold openModalByIndex. destruct (_ || _); [reflexivity|]. cbv zeta.
    simpl. rewrite showModal_page. unfold ensureModal.
    destruct (modalEl s); reflexivity.
  - destruct (modalEl s); auto.
  - destruct (modalEl s); auto.
  - destruct (modalEl s); auto.
  - destruct (modalEl s); auto.
  - unfold onKeyDown. destruct (modalEl s) as [m|]; [|reflexivity].
    destruct (modalDisplay m); try reflexivity. destruct k; auto.
Qed.

Section AppFacts.

Variable toLowerCase : jsstring -> jsstring.
Variable customTemplates : list Template.

(** Every event either leaves the lists, the count and the dropdown alone,
    or rebuilds the list, or completes a load. *)
Lemma appStep_cases (ev : AppEvent) (s : State) :
  (heap (appStep toLowerCase customTemplates ev s) = heap s
   /\ templates (appStep toLowerCase customTemplates ev s) = templates s
   /\ displayed (appStep toLowerCase customTemplates ev s) = displayed s
   /\ countEl (page (appStep toLowerCase customTemplates ev s)) = countEl (page s)
   /\ categorySel (page (appStep toLowerCase customTemplates ev s))
      = categorySel (page s))
  \/ (exists cat q,
        appStep toLowerCase customTemplates ev s = renderList toLowerCase cat q s)
  \/ (exists r,
        appStep toLowerCase customTemplates ev s
        = fetchTemplates_resume toLowerCase customTemplates r s).
Proof.
  destruct ev as [c q|c q|v|r|e|ok| |t ok]; simpl.
  - right. left. exists c, q. reflexivity.
  - right. left. exists c, q. reflexivity.
  - left. repeat split; reflexivity.
  - right. right. exists r. reflexivity.
  - left. destruct (modalStep_store e s) as (H1 & H2 & H3).
    rewrite modalStep_page. auto.
  - left. unfold modalCopyClick. destruct (_ <? _); [auto|].
    destruct (arrayGet _ _); [|auto]. destruct ok; auto.
  - left. auto.
  - left. destruct ok; auto.
Qed.

Lemma appStep_store (ev : AppEvent) (s : State) :
  wellFormed s -> sublist (displayedList s) (templatesList s) ->
  wellFormed (appStep toLowerCase customTemplates ev s)
  /\ sublist (displayedList (appStep toLowerCase customTemplates ev s))
             (templatesList (appStep toLowerCase customTemplates ev s))
  /\ heap s `prefix_of` heap (appStep toLowerCase customTemplates ev s).
Proof.
  intros Hwf Hsub.
  destruct (appStep_cases ev s)
    as [(H1 & H2 & H3 & _)|[(cat & q & ->)|(r & ->)]].
  - unfold wellFormed, displayedList, templatesList in *.
    rewrite H1, H2, H3. split; [exact Hwf|]. split; [exact Hsub | reflexivity].
  - split; [apply renderList_wellFormed; exact Hwf|]. split.
    + rewrite renderList_displayedList, renderList_templatesList
        by apply Hwf. apply filter_sublist.
    + destruct (renderList_state toLowerCase cat q s) as (Hh & _).
      rewrite Hh. apply prefix_app_r. reflexivity.
  - split; [apply fetchTemplates_resume_wellFormed; exact Hwf|].
    unfold fetchTemplates_resume.
    destruct (settle_templates customTemplates r s) as (_ & Hlt & _).
    cbv zeta in Hlt.
    set (x := populateCategories (fetchTemplates_settle customTemplates r s)) in *.
    split.
    + rewrite renderList_displayedList, renderList_templatesList by exact Hlt.
      apply filter_sublist.
    + destruct (renderList_state toLowerCase (lit "All") [] x) as (Hh & _).
      rewrite Hh. apply prefix_app_r.
      unfold x. destruct r; simpl; apply prefix_app_r; reflexivity.
Qed.

Lemma appStep_sync (ev : AppEvent) (s : State) :
  wellFormed s -> countInSync s -> dropdownInSync s ->
  countInSync (appStep toLowerCase customTemplates ev s)
  /\ dropdownInSync (appStep toLowerCase customTemplates ev s).
Proof.
  intros Hwf Hc Hd.
  destruct (appStep_cases ev s)
    as [(H1 & H2 & H3 & H4 & H5)|[(cat & q & ->)|(r & ->)]].
  - unfold countInSync, dropdownInSync, displayedList, templatesList in *.
    rewrite H1, H2, H3, H4, H5. split; assumption.
  - split; [apply renderList_countEl; apply Hwf|].
    unfold dropdownInSync.
    rewrite renderList_categorySel, renderList_templatesList by apply Hwf.
    exact Hd.
  - unfold fetchTemplates_resume.
    destruct (settle_templates customTemplates r s) as (_ & Hlt & _ & Hcat & _).
    cbv zeta in Hlt, Hcat.
    set (x := populateCategories (fetchTemplates_settle customTemplates r s)) in *.
    split; [apply renderList_countEl; exact Hlt|].
    unfold dropdownInSync.
    rewrite renderList_categorySel, renderList_templatesList by exact Hlt.
    exact Hcat.
Qed.

Lemma runApp_store (evs : list AppEvent) (s : State) :
  wellFormed s -> sublist (displayedList s) (templatesList s) ->
  wellFormed (runApp toLowerCase customTemplates evs s)
  /\ sublist (displayedList (runApp toLowerCase customTemplates evs s))
             (templatesList (runApp toLowerCase customTemplates evs s))
  /\ heap s `prefix_of` heap (runApp toLowerCase customTemplates evs s).
Proof.
  revert s. induction evs as [|ev evs IH]; intros s Hwf Hsub; simpl.
  - split; [exact Hwf|]. split; [exact Hsub | reflexivity].
  - destruct (appStep_store ev s Hwf Hsub) as (H1 & H2 & H3).
    destruct (IH _ H1 H2) as (H4 & H5 & H6).
    split; [exact H4|]. split; [exact H5|].
    etransitivity; eassumption.
Qed.

Lemma runApp_sync (evs : list AppEvent) (s : State) :
  wellFormed s -> sublist (displayedList s) (templatesList s) ->
  countInSync s -> dropdownInSync s ->
  countInSync (runApp toLowerCase customTemplates evs s)
  /\ dropdownInSync (runApp toLowerCase customTemplates evs s).
Proof.
  revert s. induction evs as [|ev evs IH]; intros s Hwf Hsub Hc Hd; simpl.
  - split; assumption.
  - destruct (appStep_store ev s Hwf Hsub) as (H1 & H2 & _).
    destruct (appStep_sync ev s Hwf Hc Hd) as (H3 & H4).
    apply IH; assumption.
Qed.

End AppFacts.

(** X14: along every sequence of events from the script's initial state
    (filter changes, language changes, batches settling in whatever way,
    modal actions, copies), [templates] and [displayed] name arrays of the
    store, [displayed] holds a subsequence of [templates], and the arrays
    built so far are still there unchanged: the store only gets longer. *)
Theorem app_displayed_within_templates (toLowerCase : jsstring -> jsstring)
    (customTemplates : list Template) (p : Page) (evs : list AppEvent) :
  let s := runApp toLowerCase customTemplates evs (initialState p) in
  wellFormed s
  /\ sublist (displayedList s) (templatesList s)
  /\ (forall ev,
        heap s `prefix_of` heap (appStep toLowerCase customTemplates ev s)).
Proof.
  cbv zeta.
  assert (sublist (displayedList (initialState p)) (templatesList (initialState p)))
    as Hsub0 by constructor.
  destruct (runApp_store toLowerCase customTemplates evs (initialState p)
              (initialState_wellFormed p) Hsub0) as (Hwf & Hsub & _).
  split; [exact Hwf|]. split; [exact Hsub|].
  intros ev. apply appStep_store; assumption.
Qed.

(** X15: from the moment a load has completed, the count readout reads
    "shown / total" for the two lists and the dropdown holds the categories
    of [templates], in every state any further events lead to. *)
Theorem count_and_dropdown_stay_in_sync (toLowerCase : jsstring -> jsstring)
    (customTemplates : list Template) (p : Page)
    (before after : list AppEvent) (r : Settled (list Template)) :
  let s :=
    runApp toLowerCase customTemplates (before ++ BatchSettled r :: after)
      (initialState p) in
  countEl (page s)
  = ofNat (length (displayedList s)) ++ lit " / " ++ ofNat (length (templatesList s))
  /\ categorySel (page s) = categoriesOf (templatesList s).
Proof.
  cbv zeta. unfold runApp. rewrite fold_left_app. simpl.
  fold (runApp toLowerCase customTemplates before (initialState p)).
  set (s1 := runApp toLowerCase customTemplates before (initialState p)).
  assert (sublist (displayedList (initialState p)) (templatesList (initialState p)))
    as Hsub0 by constructor.
  destruct (runApp_store toLowerCase customTemplates before (initialState p)
              (initialState_wellFormed p) Hsub0) as (Hwf1 & Hsub1 & _).
  fold s1 in Hwf1, Hsub1.
  destruct (appStep_store toLowerCase customTemplates (BatchSettled r) s1
              Hwf1 Hsub1) as (Hwf2 & Hsub2 & _).
  assert (countInSync (appStep toLowerCase customTemplates (BatchSettled r) s1)
          /\ dropdownInSync (appStep toLowerCase customTemplates (BatchSettled r) s1))
    as [Hc Hd].
  { simpl. unfold fetchTemplates_resume.
    destruct (settle_templates customTemplates r s1) as (_ & Hlt & _ & Hcat & _).
    cbv zeta in Hlt, Hcat.
    set (x := populateCategories (fetchTemplates_settle customTemplates r s1)) in *.
    split; [apply renderList_countEl; exact Hlt|].
    unfold dropdownInSync.
    rewrite renderList_categorySel, renderList_templatesList by exact Hlt.
    exact Hcat. }
  apply (runApp_sync toLowerCase customTemplates after _ Hwf2 Hsub2 Hc Hd).
Qed.

(** ** Copying from the modal *)

(** X16: in every state the modal events reach from the initial state with
    the modal open, a successful copy writes the e-mail of the template the
    modal shows and turns the button's label into the copied mark; when the
    timer fires the state is the one before the click but for the
    clipboard.  A failed copy only adds the alert. *)
Theorem modal_copy_is_transient (s0 : State) (evs : list ModalEvent)
    (Hinit : modalInitial s0) (Hopen : isOpen (runModal evs s0)) :
  let s := runModal evs s0 in
  exists m t,
    modalEl s = Some m
    /\ arrayGet (displayedList s) (modalIndex s) = Some t
    /\ option_map modalTitle (modalContent m) = Some (escapeHtml (Some (subject t)))
    /\ modalEl (modalCopyClick true s) = Some (set_modalCopyText copiedText m)
    /\ modalCopyTimeout (modalCopyClick true s)
       = set_clipboard
           (emailFormat (subject t) (greeting (targetLang s))
              (body t) (closing (targetLang s))) s
    /\ modalCopyClick false s
       = add_alert (lit "Copy failed. Please copy manually.") s.
Proof.
  cbv zeta.
  destruct (runModal_shows evs s0 (modalInitial_navigable s0 Hinit)
              (modalInitial_shows s0 Hinit)) as [[Hr Ho] Hs].
  set (s := runModal evs s0) in *.
  specialize (Ho Hopen).
  destruct (Hs Ho) as (m & t & Hm & Ht & Heq).
  exists m, t. split; [exact Hm|]. split; [exact Ht|].
  split; [rewrite Heq; reflexivity|].
  assert ((modalIndex s <? 0) = false) as Hpos by (apply Z.ltb_ge; exact Ho).
  assert (modalCopyText m = lit "Copy Email") as Hlabel
    by (rewrite Heq; reflexivity).
  unfold modalCopyClick. rewrite Hpos, Ht. simpl. rewrite Hm. simpl.
  split; [reflexivity|]. split; [|reflexivity].
  unfold modalCopyTimeout, set_clipboard. simpl. rewrite Hm.
  replace (set_modalCopyText (lit "Copy Email") (set_modalCopyText copiedText m))
    with m by (destruct m; simpl in Hlabel; subst; reflexivity).
  reflexivity.
Qed.

(** X16 on a run: the modal opened on the first card. *)
Lemma modal_copy_witness :
  modalInitial (loaded [salesTemplate; supportTemplate])
  /\ isOpen (runModal [CardClick 0] (loaded [salesTemplate; supportTemplate]))
  /\ exists m t,
       modalEl (runModal [CardClick 0] (loaded [salesTemplate; supportTemplate]))
       = Some m
       /\ arrayGet
            (displayedList
               (runModal [CardClick 0] (loaded [salesTemplate; supportTemplate])))
            (modalIndex
               (runModal [CardClick 0] (loaded [salesTemplate; supportTemplate])))
          = Some t.
Proof.
  assert (modalInitial (loaded [salesTemplate; supportTemplate]))
    as Hinit by (split; vm_compute; reflexivity).
  assert (isOpen (runModal [CardClick 0] (loaded [salesTemplate; supportTemplate])))
    as Hopen by (eexists; split; vm_compute; reflexivity).
  split; [exact Hinit|]. split; [exact Hopen|].
  destruct (modal_copy_is_transient _ [CardClick 0] Hinit Hopen)
    as (m & t & Hm & Ht & _).
  exists m, t. split; assumption.
Defined.

(** ** Opening a card, whatever came before *)

Lemma modalStep_rest (ev : ModalEvent) (s : State) :
  targetLang (modalStep ev s) = targetLang s
  /\ clipboard (modalStep ev s) = clipboard s
  /\ alerts (modalStep ev s) = alerts s.
Proof.
  assert (forall x, targetLang (showModal x) = targetLang x
                    /\ clipboard (showModal x) = clipboard x
                    /\ alerts (showModal x) = alerts x) as Hshow.
  { intros x. unfold showModal. cbv zeta. destruct (_ || _); [auto|].
    destruct (arrayGet _ _); [|auto]. destruct (modalEl x); auto. }
  assert (targetLang (showPrevModal s) = targetLang s
          /\ clipboard (showPrevModal s) = clipboard s
          /\ alerts (showPrevModal s) = alerts s) as Hprev.
  { unfold showPrevModal. destruct (_ >? _); [|auto].
    apply (Hshow (set_modalIndex (modalIndex s - 1) s)). }
  assert (targetLang (showNextModal s) = targetLang s
          /\ clipboard (showNextModal s) = clipboard s
          /\ alerts (showNextModal s) = alerts s) as Hnext.
  { unfold showNextModal. destruct (_ <? _); [|auto].
    apply (Hshow (set_modalIndex (modalIndex s + 1) s)). }
  assert (targetLang (closeModal s) = targetLang s
          /\ clipboard (closeModal s) = clipboard s
          /\ alerts (closeModal s) = alerts s) as Hclose.
  { unfold closeModal. destruct (modalEl s); auto. }
  destruct ev as [i| | | | |k]; simpl.
  - unfold openModalByIndex. destruct (_ || _); [auto|]. cbv zeta. simpl.
    destruct (Hshow (set_modalIndex i (ensureModal s))) as (H1 & H2 & H3).
    rewrite H1, H2, H3. unfold ensureModal. destruct (modalEl s); auto.
  - destruct (modalEl s); auto.
  - destruct (modalEl s); auto.
  - destruct (modalEl s); auto.
  - destruct (modalEl s); auto.
  - unfold onKeyDown. destruct (modalEl s) as [m|]; [|auto].
    destruct (modalDisplay m); auto. destruct k; auto.
Qed.

Lemma runModal_frame (evs : list ModalEvent) (s : State) :
  heap (runModal evs s) = heap s
  /\ templates (runModal evs s) = templates s
  /\ displayed (runModal evs s) = displayed s
  /\ targetLang (runModal evs s) = targetLang s
  /\ page (runModal evs s) = page s
  /\ clipboard (runModal evs s) = clipboard s
  /\ alerts (runModal evs s) = alerts s.
Proof.
  revert s. induction evs as [|ev evs IH]; intros s; simpl.
  - repeat split; reflexivity.
  - destruct (IH (modalStep ev s)) as (H1 & H2 & H3 & H4 & H5 & H6 & H7).
    destruct (modalStep_store ev s) as (G1 & G2 & G3).
    destruct (modalStep_rest ev s) as (G4 & G6 & G7).
    pose proof (modalStep_page ev s) as G5.
    rewrite H1, H2, H3, H4, H5, H6, H7.
    repeat split; assumption.
Qed.

(** X17: over a fixed displayed list, a click on a card leads to the same
    state whatever was done with the modal before: opened elsewhere, moved,
    closed or never opened.  The modal controller keeps nothing else of its
    past than the index. *)
Theorem card_click_forgets_history (s : State) (evs : list ModalEvent)
    (i : Z) (t : Template)
    (Hcard : arrayGet (displayedList s) i = Some t) :
  modalStep (CardClick i) (runModal evs s) = modalStep (CardClick i) s
  /\ modalIndex (modalStep (CardClick i) s) = i
  /\ isOpen (modalStep (CardClick i) s).
Proof.
  destruct (runModal_frame evs s) as (H1 & H2 & H3 & H4 & H5 & H6 & H7).
  assert (displayedList (runModal evs s) = displayedList s) as Hd
    by (unfold displayedList; rewrite H1, H3; reflexivity).
  simpl. split.
  - rewrite (openModalByIndex_in_range i (runModal evs s) t)
      by (rewrite Hd; exact Hcard).
    rewrite (openModalByIndex_in_range i s t Hcard).
    rewrite Hd, H4. unfold set_modalEl, set_modalIndex. simpl.
    rewrite H1, H2, H3, H4, H5, H6, H7. reflexivity.
  - rewrite (openModalByIndex_in_range i s t Hcard). simpl.
    split; [reflexivity|]. eexists. split; reflexivity.
Qed.

(** X17 on a run: the first card, after the modal was moved and closed. *)
Lemma card_click_history_witness :
  arrayGet (displayedList (loaded [salesTemplate; supportTemplate])) 0
  = Some salesTemplate
  /\ modalStep (CardClick 0)
       (runModal [CardClick 1; PrevClick; KeyDown Escape]
          (loaded [salesTemplate; supportTemplate]))
     = modalStep (CardClick 0) (loaded [salesTemplate; supportTemplate]).
Proof.
  assert (arrayGet (displayedList (loaded [salesTemplate; supportTemplate])) 0
          = Some salesTemplate) as Hcard by (vm_compute; reflexivity).
  split; [exact Hcard|].
  exact (proj1 (card_click_forgets_history _
                  [CardClick 1; PrevClick; KeyDown Escape] 0 salesTemplate Hcard)).
Defined.

(** ** Cards and the modal along every run *)


Section CardFacts.

Variable toLowerCase : jsstring -> jsstring.
Variable customTemplates : list Template.




End CardFacts.



(** The same click: the card greets in English, the modal in Japanese. *)
Example card_click_after_language_change :
  let s := runApp asciiLower []
             [BatchSettled (Fulfilled [salesTemplate; supportTemplate]);
              LangChanged (lit "ja")]
             (initialState emptyPage) in
  cardGreeting (createCard (lit "en") supportTemplate 1) = greeting (lit "en")
  /\ match modalEl (modalStep (CardClick 1) s) with
     | Some m => option_map modalGreeting (modalContent m)
     | None => None
     end = Some greetingJa.
Proof. cbv zeta. split; vm_compute; reflexivity. Qed.
